(** * QTikzPicture: the geometry-to-TikZ compiler and the colour registrar

    A shallow embedding of [qtikzpicture.cpp].  Two revisions of the file are
    covered:

    - [Base]: [src/qtikzpicture.cpp], with [toTikzPath] for painter paths and
      rectangles, and the [circle] and [line] commands;
    - [Ext]: the revision that adds the polygon, line and circle compilers
      and routes every command through [writePath].

    Everything the two revisions share (the element walk of [toTikzPath],
    [registerColor], [setStream], the environment brackets and the stream
    operators) is defined once, before the two modules.

    Conventions of the embedding:
    - [QString] is [string]; [QStringList] is [list string];
    - [qreal] is [Q]; how a real number is rendered is a parameter
      ([NumberFormat]), so every statement holds for any rendering;
    - [QHash<QString, bool>] is [gmap string bool];
    - the text stream behind [ts] is a record holding the text written so
      far and the two formatting settings the code touches; a null pointer
      is [None]. *)

From Stdlib Require Import ZArith QArith String Ascii List Lia DecimalString.
From stdpp Require Import gmap strings.
Import ListNotations.

Local Open Scope Z_scope.

(** ** Host types *)

Definition qreal := Q.

Record QPointF := mkPoint { px : qreal; py : qreal }.

Inductive ElementType :=
| MoveToElement
| LineToElement
| CurveToElement
| CurveToDataElement.

(** [QPainterPath::Element]: a coordinate and the kind of the element. *)
Record Element := mkElement { ex : qreal; ey : qreal; etype : ElementType }.

(** [Element::operator QPointF]. *)
Definition element_point (e : Element) : QPointF := mkPoint (ex e) (ey e).

Definition QPainterPath := list Element.

(** [QPainterPath::isEmpty]: no element, or the single initial [MoveTo]. *)
Definition path_isEmpty (p : QPainterPath) : bool :=
  match p with
  | [] => true
  | [e] => match etype e with MoveToElement => true | _ => false end
  | _ => false
  end.

(** [QRectF]: top-left corner, width and height. *)
Record QRectF := mkRect { rx : qreal; ry : qreal; rw : qreal; rh : qreal }.

Definition Qleb0 (v : qreal) : bool := Qle_bool v 0.
Definition Qltb0 (v : qreal) : bool := negb (Qle_bool 0 v).

Definition rect_isEmpty (r : QRectF) : bool := Qleb0 (rw r) || Qleb0 (rh r).
Definition topLeft (r : QRectF) : QPointF := mkPoint (rx r) (ry r).
Definition bottomRight (r : QRectF) : QPointF :=
  mkPoint (rx r + rw r)%Q (ry r + rh r)%Q.

Record QLineF := mkLine { p1 : QPointF; p2 : QPointF }.

(** [QPolygonF] is a vector of points; it is closed when it is not empty and
    its first and last points are equal. *)
Definition QPolygonF := list QPointF.

Definition point_eqb (a b : QPointF) : bool :=
  Qeq_bool (px a) (px b) && Qeq_bool (py a) (py b).

Definition polygon_isClosed (pg : QPolygonF) : bool :=
  match pg with
  | [] => false
  | p :: _ => point_eqb p (List.last pg p)
  end.

(** [QColor] built from three 8-bit channels. *)
Record QColor := mkColor { red : Z; green : Z; blue : Z }.

Definition channel_ok (v : Z) : Prop := 0 <= v < 256.
Definition color_ok (c : QColor) : Prop :=
  channel_ok (red c) /\ channel_ok (green c) /\ channel_ok (blue c).

Definition color_eqb (a b : QColor) : bool :=
  (red a =? red b) && (green a =? green b) && (blue a =? blue b).

(** The eight [Qt::GlobalColor] values the registrar knows by name. *)
Definition Qt_red := mkColor 255 0 0.
Definition Qt_green := mkColor 0 255 0.
Definition Qt_blue := mkColor 0 0 255.
Definition Qt_black := mkColor 0 0 0.
Definition Qt_white := mkColor 255 255 255.
Definition Qt_cyan := mkColor 0 255 255.
Definition Qt_magenta := mkColor 255 0 255.
Definition Qt_yellow := mkColor 255 255 0.

(** [QColor::redF] and friends: the channel as a fraction of 255. *)
Definition redF (c : QColor) : qreal := (red c # 255)%Q.
Definition greenF (c : QColor) : qreal := (green c # 255)%Q.
Definition blueF (c : QColor) : qreal := (blue c # 255)%Q.

(** ** Strings *)

Definition isEmpty (s : string) : bool :=
  match s with EmptyString => true | String _ _ => false end.

(** [QStringList::join]. *)
Definition join (sep : string) (l : list string) : string := String.concat sep l.

Definition nl : string := String (ascii_of_nat 10) EmptyString.

(** ** Number rendering *)

Inductive RealNumberNotation := SmartNotation | FixedNotation | ScientificNotation.

(** The text of a real number in the C locale for a notation and a precision
    ([QLocale::toString(double, char, int)], which [QTextStream] uses too). *)
Class NumberFormat := { formatReal : RealNumberNotation -> Z -> qreal -> string }.

Definition formatInt (n : Z) : string := NilZero.string_of_int (Z.to_int n).

(** ** The text stream *)

Record QTextStream := mkStream {
  buffer : string;
  realNumberPrecision : Z;
  realNumberNotation : RealNumberNotation
}.

(** [QTextStream::setRealNumberPrecision]: Qt refuses a negative precision
    with a warning and falls back to its default of 6. *)
Definition setRealNumberPrecision (p : Z) (s : QTextStream) : QTextStream :=
  mkStream (buffer s) (if p <? 0 then 6 else p) (realNumberNotation s).

Definition setRealNumberNotation (n : RealNumberNotation) (s : QTextStream) : QTextStream :=
  mkStream (buffer s) (realNumberPrecision s) n.

(** [operator<<] of the stream for text, reals and integers. *)
Definition put (s : QTextStream) (t : string) : QTextStream :=
  mkStream (buffer s +:+ t) (realNumberPrecision s) (realNumberNotation s).

Definition streamReal `{NumberFormat} (s : QTextStream) (v : qreal) : string :=
  formatReal (realNumberNotation s) (realNumberPrecision s) v.

Definition put_real `{NumberFormat} (s : QTextStream) (v : qreal) : QTextStream :=
  put s (streamReal s v).

Definition put_int (s : QTextStream) (n : Z) : QTextStream := put s (formatInt n).

Declare Scope stream_scope.
Delimit Scope stream_scope with stream.
Notation "s << t" := (put s t) (at level 50, left associativity) : stream_scope.
Notation "s <<. v" := (put_real s v) (at level 50, left associativity) : stream_scope.
Local Open Scope stream_scope.

(** ** The private data of the emitter *)

Record QTikzPicturePrivate := mkPrivate {
  ts : option QTextStream;
  colors : gmap string bool;
  precision : Z
}.

Definition with_ts (d : QTikzPicturePrivate) (s : QTextStream) : QTikzPicturePrivate :=
  mkPrivate (Some s) (colors d) (precision d).

(** The text the sink holds, empty when there is no sink. *)
Definition output (d : QTikzPicturePrivate) : string :=
  match ts d with Some s => buffer s | None => "" end.

(** ** The path compiler: [toTikzPath(const QPainterPath &)]

    The loop body of the function, as a step on the three locals
    [pathList], [currentPath] and [currentControlPoint]. *)

Record Locals := mkLocals {
  pathList : list string;
  currentPath : string;
  currentControlPoint : Z
}.

(** The values the counter of pending control points takes. *)
Definition counter_ok (st : Locals) : Prop :=
  currentControlPoint st = 0 \/ currentControlPoint st = 1 \/ currentControlPoint st = 2.

Section PathCompiler.
Variable toCoord : QPointF -> string.

Definition step (st : Locals) (element : Element) : Locals :=
  match etype element with
  | MoveToElement =>
      (* close current path + append to path list *)
      let st1 :=
        if negb (isEmpty (currentPath st))
        then mkLocals (pathList st ++ [currentPath st +:+ " -- cycle"])
                      (currentPath st +:+ " -- cycle")
                      (currentControlPoint st)
        else st in
      let indentString := if (0 <? Z.of_nat (length (pathList st1))) then "    " else "" in
      mkLocals (pathList st1)
               (indentString +:+ toCoord (element_point element))
               (currentControlPoint st1)
  | LineToElement =>
      mkLocals (pathList st)
               (currentPath st +:+ " -- " +:+ toCoord (element_point element))
               (currentControlPoint st)
  | CurveToElement =>
      mkLocals (pathList st)
               (currentPath st +:+ " .. controls " +:+ toCoord (element_point element))
               1
  | CurveToDataElement =>
      if currentControlPoint st =? 1 then
        mkLocals (pathList st)
                 (currentPath st +:+ " and " +:+ toCoord (element_point element))
                 (currentControlPoint st + 1)
      else if currentControlPoint st =? 2 then
        mkLocals (pathList st)
                 (currentPath st +:+ " .. " +:+ toCoord (element_point element))
                 0
      else st
  end.

Definition locals0 : Locals := mkLocals [] "" 0.

(** The locals after the loop has walked [path]. *)
Definition walk (path : QPainterPath) : Locals := fold_left step path locals0.

Definition toTikzPath_path (path : QPainterPath) : string :=
  if path_isEmpty path then ""
  else join nl (pathList (walk path)).
End PathCompiler.

(** ** The colour registrar: [QTikzPicture::registerColor] *)

Definition hexDigit (n : Z) : ascii :=
  match String.get (Z.to_nat n) "0123456789abcdef" with
  | Some c => c
  | None => "0"%char
  end.

Definition hex2 (v : Z) : string :=
  String (hexDigit (v / 16)) (String (hexDigit (v mod 16)) EmptyString).

(** [QColor::name]: a hash sign and two hexadecimal digits per channel. *)
Definition color_name (c : QColor) : string :=
  String "#"%char (hex2 (red c) +:+ hex2 (green c) +:+ hex2 (blue c)).

(** [if (name.startsWith('#')) name.remove(0, 1)]. *)
Definition strip_hash (name : string) : string :=
  match name with
  | String "#"%char rest => rest
  | _ => name
  end.

Definition toLower (c : ascii) : ascii :=
  let n := nat_of_ascii c in
  if ((65 <=? n) && (n <=? 90))%nat then ascii_of_nat (n + 32) else c.

Fixpoint string_map (f : ascii -> ascii) (s : string) : string :=
  match s with
  | EmptyString => EmptyString
  | String c rest => String (f c) (string_map f rest)
  end.

(** [QString::replace(before, after, Qt::CaseInsensitive)] for a pattern and
    a replacement of one character each: what it does to one character of
    the text, and to the text. *)
Definition replace_char (before after c : ascii) : ascii :=
  if Ascii.eqb (toLower c) (toLower before) then after else c.

Definition replace (before after : ascii) (s : string) : string :=
  string_map (replace_char before after) s.

(** The ten [replace] calls, in the order of the source. *)
Definition transliterate (name : string) : string :=
  let name := replace "0" "q" name in
  let name := replace "1" "r" name in
  let name := replace "2" "s" name in
  let name := replace "3" "t" name in
  let name := replace "4" "u" name in
  let name := replace "5" "v" name in
  let name := replace "6" "w" name in
  let name := replace "7" "x" name in
  let name := replace "8" "y" name in
  let name := replace "9" "z" name in
  name.

(** The name the function builds for a colour that is not predefined. *)
Definition canonical_name (c : QColor) : string :=
  String "c"%char (transliterate (strip_hash (color_name c))).

(** The name [registerColor] returns for a predefined colour, if it is one. *)
Definition predefined (c : QColor) : option string :=
  if color_eqb c Qt_red then Some "red"
  else if color_eqb c Qt_green then Some "green"
  else if color_eqb c Qt_blue then Some "blue"
  else if color_eqb c Qt_black then Some "black"
  else if color_eqb c Qt_white then Some "white"
  else if color_eqb c Qt_cyan then Some "cyan"
  else if color_eqb c Qt_magenta then Some "magenta"
  else if color_eqb c Qt_yellow then Some "yellow"
  else None.

(** What the ten [replace] calls together do to one character. *)
Definition translit_char (c : ascii) : ascii :=
  replace_char "9" "z" (replace_char "8" "y" (replace_char "7" "x"
  (replace_char "6" "w" (replace_char "5" "v" (replace_char "4" "u"
  (replace_char "3" "t" (replace_char "2" "s" (replace_char "1" "r"
  (replace_char "0" "q" c))))))))).

(** Reading a canonical name back: the value of a transliterated digit, of
    a pair of them, and the colour of a whole name. *)
Definition digit_value (c : ascii) : Z :=
  match c with
  | "q" => 0 | "r" => 1 | "s" => 2 | "t" => 3 | "u" => 4
  | "v" => 5 | "w" => 6 | "x" => 7 | "y" => 8 | "z" => 9
  | "a" => 10 | "b" => 11 | "c" => 12 | "d" => 13 | "e" => 14 | "f" => 15
  | _ => 0
  end%char.

Definition decode_channel (hi lo : ascii) : Z := 16 * digit_value hi + digit_value lo.

Definition decode_name (name : string) : option QColor :=
  match name with
  | String _ (String a (String b (String c (String d (String e (String f EmptyString)))))) =>
      Some (mkColor (decode_channel a b) (decode_channel c d) (decode_channel e f))
  | _ => None
  end.

(** [QHash::contains]. *)
Definition contains (m : gmap string bool) (k : string) : bool :=
  match m !! k with Some _ => true | None => false end.

(** The registry as [registerColor] leaves it: a predefined colour and a
    name that is present change nothing, any other name is inserted. *)
Definition registry_after (color : QColor) (m : gmap string bool) : gmap string bool :=
  match predefined color with
  | Some _ => m
  | None =>
      if contains m (canonical_name color) then m
      else <[canonical_name color := true]> m
  end.

Section Emitter.
Context `{NumberFormat}.

(** The [\definecolor] command as the stream receives it. *)
Definition put_definecolor (s : QTextStream) (name : string) (c : QColor) : QTextStream :=
  s << "\definecolor{" << name << "}{rgb}{"
    <<. redF c << ", " <<. greenF c << ", " <<. blueF c << ("}" +:+ nl).

(** The text of that command, for the settings of the stream [s]. *)
Definition definecolor_text (s : QTextStream) (name : string) (c : QColor) : string :=
  "\definecolor{" +:+ name +:+ "}{rgb}{"
  +:+ streamReal s (redF c) +:+ ", " +:+ streamReal s (greenF c) +:+ ", "
  +:+ streamReal s (blueF c) +:+ "}" +:+ nl.

Definition registerColor (color : QColor) (d : QTikzPicturePrivate)
  : string * QTikzPicturePrivate :=
  match predefined color with
  | Some name => (name, d)
  | None =>
      let name := canonical_name color in
      if negb (contains (colors d) name) then
        let ts' := match ts d with
                   | Some s => Some (put_definecolor s name color)
                   | None => None
                   end in
        (name, mkPrivate ts' (<[name := true]> (colors d)) (precision d))
      else (name, d)
  end.

(** ** Construction and [setStream] *)

Definition new_QTikzPicture : QTikzPicturePrivate := mkPrivate None ∅ 2.

Definition setStream (textStream : option QTextStream) (prec : Z)
  (d : QTikzPicturePrivate) : QTikzPicturePrivate :=
  match textStream with
  | Some s =>
      mkPrivate (Some (setRealNumberNotation FixedNotation (setRealNumberPrecision prec s)))
                (colors d) (Z.max 0 prec)
  | None => mkPrivate None (colors d) (Z.max 0 prec)
  end.

(** ** Environment brackets, newlines, comments and raw insertion *)

Definition begin (options : string) (d : QTikzPicturePrivate) : QTikzPicturePrivate :=
  match ts d with
  | None => d
  | Some s =>
      if isEmpty options then with_ts d (s << ("\begin{tikzpicture}" +:+ nl))
      else with_ts d (s << "\begin{tikzpicture}[" << options << ("]" +:+ nl))
  end.

Definition end_ (d : QTikzPicturePrivate) : QTikzPicturePrivate :=
  match ts d with
  | None => d
  | Some s => with_ts d (s << ("\end{tikzpicture}" +:+ nl))
  end.

Definition beginScope (options : string) (d : QTikzPicturePrivate) : QTikzPicturePrivate :=
  match ts d with
  | None => d
  | Some s =>
      if isEmpty options then with_ts d (s << ("\begin{scope}" +:+ nl))
      else with_ts d (s << "\begin{scope}[" << options << ("]" +:+ nl))
  end.

Definition endScope (d : QTikzPicturePrivate) : QTikzPicturePrivate :=
  match ts d with
  | None => d
  | Some s => with_ts d (s << ("\end{scope}" +:+ nl))
  end.

(** [for (int i = 0; i < count; ++i) ts << "\n"]: no turn when [count <= 0]. *)
Definition newline (count : Z) (d : QTikzPicturePrivate) : QTikzPicturePrivate :=
  match ts d with
  | None => d
  | Some s => with_ts d (Nat.iter (Z.to_nat count) (fun s => s << nl) s)
  end.

Definition comment (text : string) (d : QTikzPicturePrivate) : QTikzPicturePrivate :=
  match ts d with
  | None => d
  | Some s => with_ts d (s << "% " << text << nl)
  end.

Definition insert_QString (text : string) (d : QTikzPicturePrivate) : QTikzPicturePrivate :=
  match ts d with
  | None => d
  | Some s => if isEmpty text then d else with_ts d (s << text)
  end.

(** The overload of [operator<<] for C strings forwards to the [QString] one. *)
Definition insert_chars (text : string) (d : QTikzPicturePrivate) : QTikzPicturePrivate :=
  insert_QString text d.

Definition insert_double (number : qreal) (d : QTikzPicturePrivate) : QTikzPicturePrivate :=
  match ts d with
  | None => d
  | Some s => with_ts d (s <<. number)
  end.

Definition insert_int (number : Z) (d : QTikzPicturePrivate) : QTikzPicturePrivate :=
  match ts d with
  | None => d
  | Some s => with_ts d (put_int s number)
  end.

(** [line] for a vector of points, the same in both revisions. *)
Definition put_vertex (s : QTextStream) (p : QPointF) : QTextStream :=
  s << " (" <<. px p << ", " <<. py p << ") --".

Definition line_points (points : list QPointF) (options : string)
  (d : QTikzPicturePrivate) : QTikzPicturePrivate :=
  match ts d with
  | None => d
  | Some s =>
      if (Z.of_nat (length points) <? 2) then d
      else
        let s := s << "\draw" in
        let s := if negb (isEmpty options) then s << "[" << options << "]" else s in
        let size := length points in
        let s := fold_left put_vertex (firstn (size - 1) points) s in
        let last := List.last points (mkPoint 0%Q 0%Q) in
        with_ts d (s << " (" <<. px last << ", " <<. py last << (");" +:+ nl))
  end.

End Emitter.

(** ** Revision [src/qtikzpicture.cpp] *)

Module Base.
Section Commands.
Context `{NumberFormat}.

(** [QLocale::c().toString(double)]: the general format with six digits. *)
Definition toCoord (pt : QPointF) : string :=
  "(" +:+ formatReal SmartNotation 6 (px pt) +:+ ", "
      +:+ formatReal SmartNotation 6 (py pt) +:+ ")".

Definition toTikzPath (path : QPainterPath) : string := toTikzPath_path toCoord path.

Definition toTikzPath_rect (rect : QRectF) : string :=
  if rect_isEmpty rect then ""
  else toCoord (topLeft rect) +:+ " rectangle " +:+ toCoord (bottomRight rect).

Definition path (p : QPainterPath) (options : string)
  (d : QTikzPicturePrivate) : QTikzPicturePrivate :=
  match ts d with
  | None => d
  | Some s =>
      let tikzPath := toTikzPath p in
      if isEmpty tikzPath then d
      else
        let tikzCommand :=
          if isEmpty options then "\path " else "\path[" +:+ options +:+ "] " in
        with_ts d (s << tikzCommand << tikzPath << (";" +:+ nl))
  end.

Definition path_rect (rect : QRectF) (options : string)
  (d : QTikzPicturePrivate) : QTikzPicturePrivate :=
  match ts d with
  | None => d
  | Some s =>
      let tikzPath := toTikzPath_rect rect in
      if isEmpty tikzPath then d
      else
        let tikzCommand :=
          if isEmpty options then "\path " else "\path[" +:+ options +:+ "] " in
        with_ts d (s << tikzCommand << tikzPath << (";" +:+ nl))
  end.

Definition clip (p : QPainterPath) (d : QTikzPicturePrivate) : QTikzPicturePrivate :=
  match ts d with
  | None => d
  | Some s =>
      let tikzPath := toTikzPath p in
      if isEmpty tikzPath then d
      else with_ts d (s << "\clip " << tikzPath << (";" +:+ nl))
  end.

Definition clip_rect (rect : QRectF) (d : QTikzPicturePrivate) : QTikzPicturePrivate :=
  match ts d with
  | None => d
  | Some s =>
      let tikzPath := toTikzPath_rect rect in
      if isEmpty tikzPath then d
      else with_ts d (s << "\clip " << tikzPath << (";" +:+ nl))
  end.

Definition circle (center : QPointF) (radius : qreal) (options : string)
  (d : QTikzPicturePrivate) : QTikzPicturePrivate :=
  match ts d with
  | None => d
  | Some s =>
      if Qleb0 radius then d
      else
        let s := s << "\draw" in
        let s := if negb (isEmpty options) then s << "[" << options << "]" else s in
        with_ts d (s << " (" <<. px center << ", " <<. py center
                     << ") circle (" <<. radius << ("cm);" +:+ nl))
  end.

Definition line (p q : QPointF) (options : string)
  (d : QTikzPicturePrivate) : QTikzPicturePrivate :=
  match ts d with
  | None => d
  | Some s =>
      let s := s << "\draw" in
      let s := if negb (isEmpty options) then s << "[" << options << "]" else s in
      with_ts d (s << " (" <<. px p << ", " <<. py p << ") -- ("
                   <<. px q << ", " <<. py q << (");" +:+ nl))
  end.

(** One call on the public interface of the class. *)
Inductive Call :=
| SetStream (textStream : option QTextStream) (prec : Z)
| RegisterColor (color : QColor)
| Begin (options : string)
| End_
| BeginScope (options : string)
| EndScope
| Newline (count : Z)
| Comment (text : string)
| Path (p : QPainterPath) (options : string)
| PathRect (rect : QRectF) (options : string)
| Clip (p : QPainterPath)
| ClipRect (rect : QRectF)
| Circle (center : QPointF) (radius : qreal) (options : string)
| Line (p q : QPointF) (options : string)
| LinePoints (points : list QPointF) (options : string)
| InsertQString (text : string)
| InsertChars (text : string)
| InsertDouble (number : qreal)
| InsertInt (number : Z).

Definition exec (c : Call) (d : QTikzPicturePrivate) : QTikzPicturePrivate :=
  match c with
  | SetStream textStream prec => setStream textStream prec d
  | RegisterColor color => snd (registerColor color d)
  | Begin options => begin options d
  | End_ => end_ d
  | BeginScope options => beginScope options d
  | EndScope => endScope d
  | Newline count => newline count d
  | Comment text => comment text d
  | Path p options => path p options d
  | PathRect rect options => path_rect rect options d
  | Clip p => clip p d
  | ClipRect rect => clip_rect rect d
  | Circle center radius options => circle center radius options d
  | Line p q options => line p q options d
  | LinePoints points options => line_points points options d
  | InsertQString text => insert_QString text d
  | InsertChars text => insert_chars text d
  | InsertDouble number => insert_double number d
  | InsertInt number => insert_int number d
  end.

Definition is_setStream (c : Call) : bool :=
  match c with SetStream _ _ => true | _ => false end.

(** A sequence of calls on one emitter. *)
Definition run (cs : list Call) (d : QTikzPicturePrivate) : QTikzPicturePrivate :=
  fold_left (fun d c => exec c d) cs d.

End Commands.
End Base.

(** ** Revision with [writePath] and the polygon, line and circle compilers *)

Module Ext.
Section Commands.
Context `{NumberFormat}.

(** [l.toString(v, 'g', precision)] with the precision of the emitter. *)
Definition toCoord (d : QTikzPicturePrivate) (pt : QPointF) : string :=
  "(" +:+ formatReal SmartNotation (precision d) (px pt) +:+ ", "
      +:+ formatReal SmartNotation (precision d) (py pt) +:+ ")".

Definition toTikzPath (d : QTikzPicturePrivate) (path : QPainterPath) : string :=
  toTikzPath_path (toCoord d) path.

(** [polygon[i]]. *)
Definition at_ (polygon : QPolygonF) (i : Z) : QPointF :=
  nth (Z.to_nat i) polygon (mkPoint 0%Q 0%Q).

(** [polygon.size() - polygon.isClosed() ? 1 : 0]: the subtraction binds
    tighter than the conditional, whose condition it therefore is. *)
Definition polygon_end (polygon : QPolygonF) : Z :=
  if (Z.of_nat (length polygon) - Z.b2z (polygon_isClosed polygon)) =? 0 then 0 else 1.

Definition polygon_body (d : QTikzPicturePrivate) (polygon : QPolygonF) (end_ : Z)
  (path : string) (i : Z) : string :=
  if i =? 0 then toCoord d (at_ polygon i)
  else if i =? end_ - 1 then path +:+ " -- cycle"
  else path +:+ " -- " +:+ toCoord d (at_ polygon i).

Definition toTikzPath_polygon (d : QTikzPicturePrivate) (polygon : QPolygonF) : string :=
  match polygon with
  | [] => ""
  | _ =>
      let end_ := polygon_end polygon in
      fold_left (polygon_body d polygon end_)
                (map Z.of_nat (seq 0 (Z.to_nat end_))) ""
  end.

Definition toTikzPath_rect (d : QTikzPicturePrivate) (rect : QRectF) : string :=
  if rect_isEmpty rect then ""
  else toCoord d (topLeft rect) +:+ " rectangle " +:+ toCoord d (bottomRight rect).

Definition toTikzPath_line (d : QTikzPicturePrivate) (l : QLineF) : string :=
  toCoord d (p1 l) +:+ " -- " +:+ toCoord d (p2 l).

Definition toTikzPath_circle (d : QTikzPicturePrivate) (circleCenter : QPointF)
  (radius : qreal) : string :=
  if Qltb0 radius then ""
  else toCoord d circleCenter +:+ " circle ("
       +:+ formatReal SmartNotation (precision d) radius +:+ "cm)".

Definition writePath (cmd options path : string)
  (d : QTikzPicturePrivate) : QTikzPicturePrivate :=
  match ts d with
  | None => d
  | Some s =>
      if isEmpty path then d
      else
        let s := s << cmd in
        let s := if negb (isEmpty options) then s << "[" << options << "]" else s in
        with_ts d (s << " " << path << (";" +:+ nl))
  end.

(** The shapes a command accepts, one per overload. *)
Inductive Shape :=
| OfPath (p : QPainterPath)
| OfRect (rect : QRectF)
| OfPolygon (polygon : QPolygonF)
| OfLine (l : QLineF)
| OfPoints (a b : QPointF)
| OfCircle (circleCenter : QPointF) (radius : qreal).

Definition toTikzPath_shape (d : QTikzPicturePrivate) (sh : Shape) : string :=
  match sh with
  | OfPath p => toTikzPath d p
  | OfRect rect => toTikzPath_rect d rect
  | OfPolygon polygon => toTikzPath_polygon d polygon
  | OfLine l => toTikzPath_line d l
  | OfPoints a b => toTikzPath_line d (mkLine a b)
  | OfCircle circleCenter radius => toTikzPath_circle d circleCenter radius
  end.

(** The overloads of [path], [draw] and [fill] all have the body
    [d->writePath(cmd, options, d->toTikzPath(shape))]. *)
Definition path (sh : Shape) (options : string) (d : QTikzPicturePrivate) :=
  writePath "\path" options (toTikzPath_shape d sh) d.

Definition draw (sh : Shape) (options : string) (d : QTikzPicturePrivate) :=
  writePath "\draw" options (toTikzPath_shape d sh) d.

Definition fill (sh : Shape) (options : string) (d : QTikzPicturePrivate) :=
  writePath "\fill" options (toTikzPath_shape d sh) d.

Definition clip (p : QPainterPath) (d : QTikzPicturePrivate) :=
  writePath "\clip" "" (toTikzPath d p) d.

Definition clip_rect (rect : QRectF) (d : QTikzPicturePrivate) :=
  writePath "\clip" "" (toTikzPath_rect d rect) d.

(** One call on the public interface of the class. *)
Inductive Call :=
| SetStream (textStream : option QTextStream) (prec : Z)
| RegisterColor (color : QColor)
| Begin (options : string)
| End_
| BeginScope (options : string)
| EndScope
| Newline (count : Z)
| Comment (text : string)
| Path (sh : Shape) (options : string)
| Draw (sh : Shape) (options : string)
| Fill (sh : Shape) (options : string)
| Clip (p : QPainterPath)
| ClipRect (rect : QRectF)
| LinePoints (points : list QPointF) (options : string)
| InsertQString (text : string)
| InsertChars (text : string)
| InsertDouble (number : qreal)
| InsertInt (number : Z).

Definition exec (c : Call) (d : QTikzPicturePrivate) : QTikzPicturePrivate :=
  match c with
  | SetStream textStream prec => setStream textStream prec d
  | RegisterColor color => snd (registerColor color d)
  | Begin options => begin options d
  | End_ => end_ d
  | BeginScope options => beginScope options d
  | EndScope => endScope d
  | Newline count => newline count d
  | Comment text => comment text d
  | Path sh options => path sh options d
  | Draw sh options => draw sh options d
  | Fill sh options => fill sh options d
  | Clip p => clip p d
  | ClipRect rect => clip_rect rect d
  | LinePoints points options => line_points points options d
  | InsertQString text => insert_QString text d
  | InsertChars text => insert_chars text d
  | InsertDouble number => insert_double number d
  | InsertInt number => insert_int number d
  end.

Definition is_setStream (c : Call) : bool :=
  match c with SetStream _ _ => true | _ => false end.

(** A sequence of calls on one emitter. *)
Definition run (cs : list Call) (d : QTikzPicturePrivate) : QTikzPicturePrivate :=
  fold_left (fun d c => exec c d) cs d.

End Commands.
End Ext.

(** ** The earlier revisions: commands that stream their text directly

    [tikzexport.cpp] and the revision after it write paths, rectangles and
    clip paths element by element.  The rectangle and clip commands are the
    same in both; [path] is the streamed one of [tikzexport.cpp] and
    [path_joined] the one that first collects the sub-paths in a list. *)

Module Legacy.
Section Commands.
Context `{NumberFormat}.

(** [for (int i = start; i < elementCount; ++i) body(i, elementAt(i))]. *)
Fixpoint for_elements {A : Type} (body : Z -> Element -> A -> A)
  (i : Z) (elements : list Element) (acc : A) : A :=
  match elements with
  | [] => acc
  | element :: rest => for_elements body (i + 1) rest (body i element acc)
  end.

Definition path_body (options : string) (i : Z) (element : Element)
  (s : QTextStream) : QTextStream :=
  match etype element with
  | MoveToElement =>
      let s := if 0 <? i then s << (" -- cycle;" +:+ nl) else s in
      s << "\draw[" << options << "] (" <<. ex element << ", " <<. ey element << ")"
  | LineToElement =>
      s << " -- (" <<. ex element << ", " <<. ey element << ")"
  | _ => s
  end.

Definition path (p : QPainterPath) (options : string)
  (d : QTikzPicturePrivate) : QTikzPicturePrivate :=
  match ts d with
  | None => d
  | Some s =>
      if path_isEmpty p then d
      else
        let s := for_elements (path_body options) 0 p s in
        let i := Z.of_nat (length p) in
        with_ts d (if 0 <? i then s << (" -- cycle;" +:+ nl) else s)
  end.

(** The revision that builds [pathList] inside [path] and writes only when
    the list is not empty. *)
Definition path_joined (p : QPainterPath) (options : string)
  (d : QTikzPicturePrivate) : QTikzPicturePrivate :=
  match ts d with
  | None => d
  | Some s =>
      if path_isEmpty p then d
      else
        let pathList := pathList (walk Base.toCoord p) in
        match pathList with
        | [] => d
        | _ =>
            let draw :=
              if isEmpty options then "\draw " else "\draw[" +:+ options +:+ "] " in
            let fullPath := join nl pathList in
            with_ts d (s << draw << fullPath << (";" +:+ nl))
        end
  end.

Definition path_rect (rect : QRectF) (options : string)
  (d : QTikzPicturePrivate) : QTikzPicturePrivate :=
  match ts d with
  | None => d
  | Some s =>
      if rect_isEmpty rect then d
      else
        let s := s << "\path" in
        let s := if negb (isEmpty options) then s << "[" << options << "]" else s in
        with_ts d (s << " (" <<. px (topLeft rect) << ", " <<. py (topLeft rect)
                     << ") rectangle (" <<. px (bottomRight rect) << ", "
                     <<. py (bottomRight rect) << (");" +:+ nl))
  end.

(** The body of the loop of [clip]: the stream, and how many times
    [qWarning] was called for a segment that is neither move nor line. *)
Definition clip_body (i : Z) (element : Element)
  (acc : QTextStream * nat) : QTextStream * nat :=
  let s := acc.1 in
  let warnings := acc.2 in
  let branch :=
    match etype element with
    | MoveToElement =>
        (if 0 <? i then s << " -- cycle" << (nl +:+ "      ") else s, warnings)
    | LineToElement => (s << " -- ", warnings)
    | _ => (s, S warnings)
    end in
  (branch.1 << "(" <<. ex element << ", " <<. ey element << ")", branch.2).

Definition clip (p : QPainterPath) (d : QTikzPicturePrivate)
  : QTikzPicturePrivate * nat :=
  match ts d with
  | None => (d, O)
  | Some s =>
      if path_isEmpty p then (d, O)
      else
        let r := for_elements clip_body 0 p (s << "\clip ", O) in
        (with_ts d (r.1 << (" -- cycle;" +:+ nl)), r.2)
  end.

(** [clip] for a rectangle ends its command without a newline. *)
Definition clip_rect (rect : QRectF) (d : QTikzPicturePrivate) : QTikzPicturePrivate :=
  match ts d with
  | None => d
  | Some s =>
      if rect_isEmpty rect then d
      else
        with_ts d (s << "\clip (" <<. px (topLeft rect) << ", " <<. py (topLeft rect)
                     << ") rectangle (" <<. px (bottomRight rect) << ", "
                     <<. py (bottomRight rect) << ");")
  end.

End Commands.
End Legacy.

(** ** Vocabulary of the properties *)

Definition is_move (e : Element) : bool :=
  match etype e with MoveToElement => true | _ => false end.

(** The number of [MoveTo] elements of a path. *)
Definition count_moves (p : QPainterPath) : nat := length (List.filter is_move p).

(** The elements [Legacy.clip] warns about. *)
Definition is_curve (e : Element) : bool :=
  match etype e with
  | CurveToElement | CurveToDataElement => true
  | _ => false
  end.

(** A text ends with the closing marker. *)
Definition closed_text (t : string) : Prop := exists body, t = body +:+ " -- cycle".

(** Lower-case letters. *)
Definition is_letter (c : ascii) : bool :=
  let n := nat_of_ascii c in ((97 <=? n) && (n <=? 122))%nat.

Fixpoint string_forallb (f : ascii -> bool) (s : string) : bool :=
  match s with
  | EmptyString => true
  | String c rest => f c && string_forallb f rest
  end.

(** [count] newline characters. *)
Fixpoint newlines (count : nat) : string :=
  match count with
  | O => EmptyString
  | S k => nl +:+ newlines k
  end.

(** The text of one vertex of [line] for a vector of points, and of all
    vertices but the last. *)
Definition vertex_text `{NumberFormat} (s : QTextStream) (p : QPointF) : string :=
  " (" +:+ streamReal s (px p) +:+ ", " +:+ streamReal s (py p) +:+ ") --".

Fixpoint concat_map {A : Type} (f : A -> string) (l : list A) : string :=
  match l with
  | [] => EmptyString
  | a :: rest => f a +:+ concat_map f rest
  end.

(** The stream [s'] is [s] with text appended and the same settings. *)
Definition appended (s s' : QTextStream) : Prop :=
  exists t, s' = mkStream (buffer s +:+ t) (realNumberPrecision s) (realNumberNotation s).

(** A call outcome: the sink is still there, grew, and the precision of
    the emitter is the same. *)
Definition grows (d d' : QTikzPicturePrivate) : Prop :=
  forall s, ts d = Some s ->
    exists s', ts d' = Some s' /\ appended s s' /\ precision d' = precision d.

(** The text of one line segment in [Legacy.path]. *)
Definition segment_text `{NumberFormat} (s : QTextStream) (e : Element) : string :=
  " -- (" +:+ streamReal s (ex e) +:+ ", " +:+ streamReal s (ey e) +:+ ")".

(** ** A rendering to run the model with

    Fixed-point text with [prec] fractional digits, rounded half up, whatever
    the notation.  The theorems below hold for every [NumberFormat]; this one
    serves to evaluate the definitions on concrete inputs. *)

Fixpoint zeros (n : nat) : string :=
  match n with
  | O => ""
  | S k => String "0"%char (zeros k)
  end.

Definition fixed_text (prec : Z) (v : qreal) : string :=
  let p := Z.max 0 prec in
  let den := Z.pos (Qden v) in
  let n := (2 * Qnum v * 10 ^ p + den) / (2 * den) in
  let a := Z.abs n in
  let frac := formatInt (a mod 10 ^ p) in
  (if n <? 0 then "-" else "")
  +:+ formatInt (a / 10 ^ p)
  +:+ (if p =? 0 then ""
       else "." +:+ zeros (Z.to_nat p - String.length frac) +:+ frac).

Definition fixedFormat : NumberFormat := {| formatReal := fun _ prec v => fixed_text prec v |}.

(** A stream as [QTextStream] constructs it: nothing written, precision 6,
    smart notation. *)
Definition fresh_stream : QTextStream := mkStream "" 6 SmartNotation.

(** An emitter with that stream as its sink and the default precision. *)
Definition sample_emitter : QTikzPicturePrivate :=
  setStream (Some fresh_stream) 2 new_QTikzPicture.

(** The text [if (!options.isEmpty()) ts << "[" << options << "]"] writes:
    the options in brackets, nothing when there are none. *)
Definition bracket (options : string) : string :=
  if isEmpty options then "" else "[" +:+ options +:+ "]".

(** * Properties *)

(** ** Text and stream lemmas *)

Lemma app_assoc_s (a b c : string) : (a +:+ b) +:+ c = a +:+ (b +:+ c).
Proof.
  induction a as [|ch a IH]; [reflexivity|].
  change (String ch ((a +:+ b) +:+ c) = String ch (a +:+ b +:+ c)).
  now rewrite IH.
Qed.

Lemma app_nil_r_s (a : string) : a +:+ "" = a.
Proof.
  induction a as [|ch a IH]; [reflexivity|].
  change (String ch (a +:+ "") = String ch a). now rewrite IH.
Qed.

Lemma app_nil_l_s (a : string) : "" +:+ a = a.
Proof. reflexivity. Qed.

Lemma app_cons_s (ch : ascii) (a b : string) : String ch a +:+ b = String ch (a +:+ b).
Proof. reflexivity. Qed.

Lemma buffer_put (s : QTextStream) (t : string) : buffer (s << t) = buffer s +:+ t.
Proof. reflexivity. Qed.

Lemma precision_put (s : QTextStream) (t : string) :
  realNumberPrecision (s << t) = realNumberPrecision s.
Proof. reflexivity. Qed.

Lemma notation_put (s : QTextStream) (t : string) :
  realNumberNotation (s << t) = realNumberNotation s.
Proof. reflexivity. Qed.

Lemma streamReal_put `{NumberFormat} (s : QTextStream) (t : string) (v : qreal) :
  streamReal (s << t) v = streamReal s v.
Proof. reflexivity. Qed.

Lemma output_with_ts (d : QTikzPicturePrivate) (s : QTextStream) :
  output (with_ts d s) = buffer s.
Proof. reflexivity. Qed.

Create Rewrite HintDb stream.
#[local] Hint Rewrite buffer_put precision_put notation_put @streamReal_put
  output_with_ts app_assoc_s app_nil_r_s : stream.

(** Unfolds the stream operators and puts the written text in normal form. *)
Ltac stream_norm :=
  unfold put_real, put_int in *; autorewrite with stream in *.

(** ** The element walk *)

Section Walk.
Variable toCoord : QPointF -> string.

Lemma walk_snoc (path : QPainterPath) (e : Element) :
  walk toCoord (path ++ [e]) = step toCoord (walk toCoord path) e.
Proof. unfold walk. now rewrite fold_left_app. Qed.

Lemma walk_app (path tail : QPainterPath) :
  walk toCoord (path ++ tail) = fold_left (step toCoord) tail (walk toCoord path).
Proof. unfold walk. now rewrite fold_left_app. Qed.

(** Only a [MoveTo] element adds to [pathList]. *)
Lemma step_pathList (st : Locals) (e : Element) :
  etype e <> MoveToElement -> pathList (step toCoord st e) = pathList st.
Proof.
  intros Hne. unfold step.
  destruct (etype e); try congruence; try reflexivity.
  destruct (currentControlPoint st =? 1); [reflexivity|].
  destruct (currentControlPoint st =? 2); reflexivity.
Qed.

Lemma fold_step_pathList (tail : QPainterPath) (st : Locals) :
  Forall (fun e => etype e <> MoveToElement) tail ->
  pathList (fold_left (step toCoord) tail st) = pathList st.
Proof.
  revert st. induction tail as [|e tail IH]; intros st Hall; [reflexivity|].
  inversion Hall as [|? ? He Htail]; subst. simpl.
  rewrite IH by assumption. now apply step_pathList.
Qed.

(** The elements after the last [MoveTo] leave no trace in the result: the
    function returns [pathList.join] and never looks at [currentPath] again. *)
Lemma trailing_subpath_not_in_result (path tail : QPainterPath) :
  Forall (fun e => etype e <> MoveToElement) tail ->
  pathList (walk toCoord (path ++ tail)) = pathList (walk toCoord path).
Proof. intros Hall. rewrite walk_app. now apply fold_step_pathList. Qed.

(** The counter of pending control points is always 0, 1 or 2. *)
Lemma step_counter_ok (st : Locals) (e : Element) :
  counter_ok st -> counter_ok (step toCoord st e).
Proof.
  unfold counter_ok, step. intros Hc.
  destruct (etype e); simpl.
  - destruct (negb (isEmpty (currentPath st))); simpl; assumption.
  - assumption.
  - lia.
  - destruct (currentControlPoint st =? 1) eqn:E1; simpl.
    + apply Z.eqb_eq in E1. lia.
    + destruct (currentControlPoint st =? 2) eqn:E2; simpl; [lia | assumption].
Qed.

Lemma walk_counter_ok (path : QPainterPath) : counter_ok (walk toCoord path).
Proof.
  induction path as [|e path IH] using rev_ind.
  - left. reflexivity.
  - rewrite walk_snoc. now apply step_counter_ok.
Qed.

End Walk.

(** C9. The control-point state machine of the path compiler.  Whatever
    elements came before, the next element [e] changes the locals of the loop
    as follows: a [CurveTo] appends [" .. controls "] and its coordinate and
    sets the counter to 1; a [CurveToData] appends [" and "] and its
    coordinate and sets the counter to 2 when the counter is 1, appends
    [" .. "] and its coordinate and resets the counter to 0 when it is 2, and
    changes nothing when it is 0.  The counter has no other value, so the
    function is defined on every element sequence. *)
Theorem control_point_state_machine
  (toCoord : QPointF -> string) (path : QPainterPath) (e : Element) :
  let st := walk toCoord path in
  let st' := walk toCoord (path ++ [e]) in
  let coord := toCoord (element_point e) in
  (etype e = CurveToElement ->
     st' = mkLocals (pathList st) (currentPath st +:+ " .. controls " +:+ coord) 1) /\
  (etype e = CurveToDataElement -> currentControlPoint st = 1 ->
     st' = mkLocals (pathList st) (currentPath st +:+ " and " +:+ coord) 2) /\
  (etype e = CurveToDataElement -> currentControlPoint st = 2 ->
     st' = mkLocals (pathList st) (currentPath st +:+ " .. " +:+ coord) 0) /\
  (etype e = CurveToDataElement -> currentControlPoint st = 0 -> st' = st) /\
  counter_ok st.
Proof.
  intros st st' coord. subst st'. rewrite walk_snoc. fold st.
  repeat split.
  - intros Ht. unfold step. now rewrite Ht.
  - intros Ht Hc. unfold step. now rewrite Ht, Hc.
  - intros Ht Hc. unfold step. now rewrite Ht, Hc.
  - intros Ht Hc. unfold step. now rewrite Ht, Hc.
  - apply walk_counter_ok.
Qed.

(** Each branch of the state machine on a concrete path. *)
Lemma control_point_state_machine_witness :
  let c := @Base.toCoord fixedFormat in
  let m := mkElement 0%Q 0%Q MoveToElement in
  let k := mkElement 1%Q 2%Q CurveToElement in
  let a := mkElement 3%Q 4%Q CurveToDataElement in
  let b := mkElement 5%Q 6%Q CurveToDataElement in
  walk c ([m] ++ [k]) = mkLocals [] (currentPath (walk c [m]) +:+ " .. controls " +:+ "(1.000000, 2.000000)") 1 /\
  walk c ([m; k] ++ [a]) = mkLocals [] (currentPath (walk c [m; k]) +:+ " and " +:+ "(3.000000, 4.000000)") 2 /\
  walk c ([m; k; a] ++ [b]) = mkLocals [] (currentPath (walk c [m; k; a]) +:+ " .. " +:+ "(5.000000, 6.000000)") 0 /\
  walk c ([m] ++ [a]) = walk c [m].
Proof.
  intros c m k a b. split; [|split; [|split]].
  - apply (proj1 (control_point_state_machine c [m] k)). reflexivity.
  - apply (proj1 (proj2 (control_point_state_machine c [m; k] a))); reflexivity.
  - apply (proj1 (proj2 (proj2 (control_point_state_machine c [m; k; a] b)))); reflexivity.
  - apply (proj1 (proj2 (proj2 (proj2 (control_point_state_machine c [m] a))))); reflexivity.
Defined.

(** ** The result of the path compiler *)

Section PathResult.
Context `{NumberFormat}.

(** C1. A path of one [MoveTo] and one [LineTo] compiles to the empty text
    in both revisions: the loop leaves the sub-path in [currentPath] and the
    function returns [pathList.join], to which the sub-path was never
    added. *)
Theorem single_subpath_compiles_to_nothing
  (d : QTikzPicturePrivate) (x1 y1 x2 y2 : qreal) :
  Base.toTikzPath [mkElement x1 y1 MoveToElement; mkElement x2 y2 LineToElement] = ""
  /\ Ext.toTikzPath d [mkElement x1 y1 MoveToElement; mkElement x2 y2 LineToElement] = "".
Proof. split; reflexivity. Qed.

(** C2. Of a path with two sub-paths the compiler returns the first one
    only, closed with [" -- cycle"]: the second sub-path is still in
    [currentPath] when the loop ends and is not part of the result, so
    there is nothing for a newline to join. *)
Theorem second_subpath_is_dropped
  (d : QTikzPicturePrivate) (a b c e : QPointF) :
  let path := [mkElement (px a) (py a) MoveToElement;
               mkElement (px b) (py b) LineToElement;
               mkElement (px c) (py c) MoveToElement;
               mkElement (px e) (py e) LineToElement] in
  Base.toTikzPath path = Base.toCoord a +:+ " -- " +:+ Base.toCoord b +:+ " -- cycle"
  /\ Ext.toTikzPath d path = Ext.toCoord d a +:+ " -- " +:+ Ext.toCoord d b +:+ " -- cycle".
Proof.
  destruct a, b, c, e. split.
  - unfold Base.toTikzPath, toTikzPath_path, walk. simpl.
    unfold Base.toCoord. simpl. now rewrite !app_assoc_s.
  - unfold Ext.toTikzPath, toTikzPath_path, walk. simpl.
    unfold Ext.toCoord. simpl. now rewrite !app_assoc_s.
Qed.

End PathResult.

(** ** Canonical colour names *)

Lemma string_map_app (f : ascii -> ascii) (a b : string) :
  string_map f (a +:+ b) = string_map f a +:+ string_map f b.
Proof.
  induction a as [|ch a IH]; [reflexivity|].
  rewrite app_cons_s. simpl. now rewrite IH, app_cons_s.
Qed.

Lemma string_map_compose (f g : ascii -> ascii) (s : string) :
  string_map f (string_map g s) = string_map (fun c => f (g c)) s.
Proof.
  induction s as [|ch s IH]; [reflexivity|].
  cbn [string_map]. now rewrite IH.
Qed.

(** The ten passes over the text amount to one pass with [translit_char]. *)
Lemma transliterate_map (s : string) : transliterate s = string_map translit_char s.
Proof.
  unfold transliterate, replace. cbv zeta.
  rewrite !string_map_compose. unfold translit_char. reflexivity.
Qed.

(** The table of the transliteration: digits become [q] to [z], the
    hexadecimal letters stay. *)
Lemma transliterate_table :
  transliterate "0123456789abcdef" = "qrstuvwxyzabcdef".
Proof. reflexivity. Qed.

Lemma digit_value_translit_nat (k : nat) :
  (k < 16)%nat -> digit_value (translit_char (hexDigit (Z.of_nat k))) = Z.of_nat k.
Proof.
  intros Hk. do 16 (destruct k as [|k]; [reflexivity|]). lia.
Qed.

Lemma digit_value_translit (n : Z) :
  0 <= n < 16 -> digit_value (translit_char (hexDigit n)) = n.
Proof.
  intros Hn. rewrite <- (Z2Nat.id n) by lia.
  apply digit_value_translit_nat. lia.
Qed.

Lemma decode_channel_hex (v : Z) :
  channel_ok v ->
  decode_channel (translit_char (hexDigit (v / 16))) (translit_char (hexDigit (v mod 16))) = v.
Proof.
  unfold channel_ok, decode_channel. intros Hv.
  rewrite !digit_value_translit.
  - pose proof (Z.div_mod v 16 ltac:(lia)). lia.
  - apply Z.mod_pos_bound. lia.
  - split; [apply Z.div_pos; lia | apply Z.div_lt_upper_bound; lia].
Qed.

Lemma canonical_name_unfold (c : QColor) :
  canonical_name c =
  String "c" (string_map translit_char (hex2 (red c) +:+ hex2 (green c) +:+ hex2 (blue c))).
Proof. unfold canonical_name. now rewrite transliterate_map. Qed.

(** A canonical name determines the colour it was built from. *)
Lemma decode_canonical_name (c : QColor) :
  color_ok c -> decode_name (canonical_name c) = Some c.
Proof.
  destruct c as [r g b]. unfold color_ok. cbn [red green blue]. intros (Hr & Hg & Hb).
  rewrite canonical_name_unfold. cbn [red green blue].
  unfold hex2. rewrite !app_cons_s, !app_nil_l_s. cbn [string_map].
  unfold decode_name.
  now rewrite !decode_channel_hex.
Qed.

Lemma canonical_name_inj (c1 c2 : QColor) :
  color_ok c1 -> color_ok c2 -> canonical_name c1 = canonical_name c2 -> c1 = c2.
Proof.
  intros H1 H2 Heq.
  apply decode_canonical_name in H1, H2.
  rewrite Heq in H1. congruence.
Qed.

(** ** The registrar *)

Section Registrar.
Context `{NumberFormat}.

Lemma put_definecolor_buffer (s : QTextStream) (name : string) (c : QColor) :
  buffer (put_definecolor s name c) = buffer s +:+ definecolor_text s name c.
Proof.
  unfold put_definecolor, definecolor_text. stream_norm. reflexivity.
Qed.

Lemma registerColor_colors (color : QColor) (d : QTikzPicturePrivate) :
  colors (registerColor color d).2 = registry_after color (colors d).
Proof.
  unfold registerColor, registry_after.
  destruct (predefined color); [reflexivity|].
  destruct (contains (colors d) (canonical_name color)); reflexivity.
Qed.

Lemma registerColor_precision (color : QColor) (d : QTikzPicturePrivate) :
  precision (registerColor color d).2 = precision d.
Proof.
  unfold registerColor.
  destruct (predefined color); [reflexivity|].
  destruct (contains (colors d) (canonical_name color)); reflexivity.
Qed.

(** The name depends on the colour only. *)
Lemma registerColor_name (color : QColor) (d : QTikzPicturePrivate) :
  (registerColor color d).1 =
  match predefined color with Some name => name | None => canonical_name color end.
Proof.
  unfold registerColor.
  destruct (predefined color); [reflexivity|].
  destruct (contains (colors d) (canonical_name color)); reflexivity.
Qed.

(** A colour is settled in a state when registering it there is a no-op. *)
Lemma registerColor_settled (color : QColor) (d : QTikzPicturePrivate) :
  is_Some (predefined color) \/ contains (colors d) (canonical_name color) = true ->
  (registerColor color d).2 = d.
Proof.
  unfold registerColor. intros [[name Hp] | Hc].
  - now rewrite Hp.
  - destruct (predefined color); [reflexivity|]. now rewrite Hc.
Qed.

Lemma registerColor_settles (color : QColor) (d : QTikzPicturePrivate) :
  is_Some (predefined color)
  \/ contains (colors (registerColor color d).2) (canonical_name color) = true.
Proof.
  unfold registerColor.
  destruct (predefined color) as [name|] eqn:Hp; [left; eauto|right].
  destruct (contains (colors d) (canonical_name color)) eqn:Hc; simpl; [assumption|].
  unfold contains. now rewrite lookup_insert_eq.
Qed.

Lemma registry_after_keeps (color : QColor) (m : gmap string bool) (k : string) (v : bool) :
  m !! k = Some v -> registry_after color m !! k = Some v.
Proof.
  unfold registry_after, contains. intros Hk.
  destruct (predefined color); [assumption|].
  destruct (m !! canonical_name color) eqn:Hc; [assumption|].
  rewrite lookup_insert_ne; [assumption|]. intros E. rewrite E in Hc. congruence.
Qed.

Lemma contains_keeps (m m' : gmap string bool) (k : string) :
  (forall j v, m !! j = Some v -> m' !! j = Some v) ->
  contains m k = true -> contains m' k = true.
Proof.
  unfold contains. intros Hsub Hk.
  destruct (m !! k) as [v|] eqn:E; [|discriminate].
  now rewrite (Hsub _ _ E).
Qed.

(** The calls that are not [registerColor] do not touch the registry. *)
Lemma shared_calls_colors (d : QTikzPicturePrivate) :
  (forall textStream prec, colors (setStream textStream prec d) = colors d)
  /\ (forall options, colors (begin options d) = colors d)
  /\ colors (end_ d) = colors d
  /\ (forall options, colors (beginScope options d) = colors d)
  /\ colors (endScope d) = colors d
  /\ (forall count, colors (newline count d) = colors d)
  /\ (forall text, colors (comment text d) = colors d)
  /\ (forall points options, colors (line_points points options d) = colors d)
  /\ (forall text, colors (insert_QString text d) = colors d)
  /\ (forall number, colors (insert_double number d) = colors d)
  /\ (forall number, colors (insert_int number d) = colors d).
Proof.
  unfold setStream, begin, end_, beginScope, endScope, newline, comment,
    line_points, insert_QString, insert_double, insert_int.
  repeat split; intros;
    repeat match goal with
           | |- context [match ?x with _ => _ end] => destruct x
           end; reflexivity.
Qed.

Lemma base_exec_colors (c : Base.Call) (d : QTikzPicturePrivate) :
  colors (Base.exec c d) =
  match c with
  | Base.RegisterColor color => registry_after color (colors d)
  | _ => colors d
  end.
Proof.
  destruct (shared_calls_colors d) as (? & ? & ? & ? & ? & ? & ? & ? & ? & ? & ?).
  destruct c; cbn [Base.exec]; unfold insert_chars; auto using registerColor_colors.
  all: unfold Base.path, Base.path_rect, Base.clip, Base.clip_rect, Base.circle, Base.line;
    repeat match goal with
           | |- context [match ?x with _ => _ end] => destruct x
           end; reflexivity.
Qed.

Lemma writePath_colors (cmd options path : string) (d : QTikzPicturePrivate) :
  colors (Ext.writePath cmd options path d) = colors d.
Proof.
  unfold Ext.writePath.
  repeat match goal with
         | |- context [match ?x with _ => _ end] => destruct x
         end; reflexivity.
Qed.

Lemma ext_exec_colors (c : Ext.Call) (d : QTikzPicturePrivate) :
  colors (Ext.exec c d) =
  match c with
  | Ext.RegisterColor color => registry_after color (colors d)
  | _ => colors d
  end.
Proof.
  destruct (shared_calls_colors d) as (? & ? & ? & ? & ? & ? & ? & ? & ? & ? & ?).
  destruct c; cbn [Ext.exec]; unfold insert_chars; auto using registerColor_colors.
  all: apply writePath_colors.
Qed.

Lemma base_run_keeps (cs : list Base.Call) (d : QTikzPicturePrivate) (k : string) (v : bool) :
  colors d !! k = Some v -> colors (Base.run cs d) !! k = Some v.
Proof.
  revert d. induction cs as [|c cs IH]; intros d Hk; [assumption|].
  cbn [Base.run fold_left]. apply IH. rewrite base_exec_colors.
  destruct c; auto using registry_after_keeps.
Qed.

Lemma ext_run_keeps (cs : list Ext.Call) (d : QTikzPicturePrivate) (k : string) (v : bool) :
  colors d !! k = Some v -> colors (Ext.run cs d) !! k = Some v.
Proof.
  revert d. induction cs as [|c cs IH]; intros d Hk; [assumption|].
  cbn [Ext.run fold_left]. apply IH. rewrite ext_exec_colors.
  destruct c; auto using registry_after_keeps.
Qed.

Lemma registerColor_again (color : QColor) (d d' : QTikzPicturePrivate) :
  (forall k v, colors (registerColor color d).2 !! k = Some v -> colors d' !! k = Some v) ->
  registerColor color d' = ((registerColor color d).1, d').
Proof.
  intros Hsub. rewrite (surjective_pairing (registerColor color d')). f_equal.
  - now rewrite !registerColor_name.
  - apply registerColor_settled.
    destruct (registerColor_settles color d) as [Hp | Hc]; [now left | right].
    eapply contains_keeps; eassumption.
Qed.

Lemma registerColor_output (color : QColor) (d : QTikzPicturePrivate) :
  (registerColor color d).2 = d
  \/ ts d = None
  \/ exists s, ts d = Some s /\ predefined color = None
       /\ colors d !! canonical_name color = None
       /\ output (registerColor color d).2
          = output d +:+ definecolor_text s (canonical_name color) color.
Proof.
  unfold registerColor, contains.
  destruct (predefined color) eqn:Hp; [now left|].
  destruct (colors d !! canonical_name color) eqn:Hc; [now left|]. simpl.
  destruct (ts d) as [s|] eqn:Hts; [|now (right; left)].
  right; right. exists s. repeat split.
  unfold output. simpl. rewrite Hts. apply put_definecolor_buffer.
Qed.

End Registrar.

Section RegistrarProperties.
Context `{NumberFormat}.

(** C3. [registerColor] is idempotent.  For every colour: (1) the name
    returned is the same in every state; (2) after one call, any number of
    further calls in a row change nothing, so the emitter is as the first
    call left it; (3) a single call either changes nothing, or finds no sink,
    or writes the [\definecolor] command exactly once; (4) once the colour was
    registered, a later call returns the same name and neither writes nor
    changes anything, whatever calls of either revision come between;
    (5) with a sink, for a colour that is not predefined and not yet in the
    registry, the call appends exactly the definition; (6) no sequence of
    calls ever removes an entry of the registry; (7) on a new emitter that
    was given a sink, any number of calls (at least one) for a colour that
    is not predefined leave exactly one definition in the sink. *)
Theorem registerColor_idempotent (color : QColor) :
  (forall d1 d2, (registerColor color d1).1 = (registerColor color d2).1)
  /\ (forall d n,
        Nat.iter (S n) (fun d => (registerColor color d).2) d = (registerColor color d).2)
  /\ (forall d,
        (registerColor color d).2 = d
        \/ ts d = None
        \/ exists s, ts d = Some s
             /\ output (registerColor color d).2
                = output d +:+ definecolor_text s (registerColor color d).1 color)
  /\ (forall d cs,
        let d' := Base.run cs (registerColor color d).2 in
        registerColor color d' = ((registerColor color d).1, d'))
  /\ (forall d cs,
        let d' := Ext.run cs (registerColor color d).2 in
        registerColor color d' = ((registerColor color d).1, d'))
  /\ (forall d s,
        ts d = Some s -> predefined color = None ->
        colors d !! canonical_name color = None ->
        output (registerColor color d).2
        = output d +:+ definecolor_text s (canonical_name color) color)
  /\ (forall d cs k v,
        colors d !! k = Some v -> colors (Base.run cs d) !! k = Some v)
  /\ (forall d cs k v,
        colors d !! k = Some v -> colors (Ext.run cs d) !! k = Some v)
  /\ (forall s p n, predefined color = None ->
        let s0 := setRealNumberNotation FixedNotation (setRealNumberPrecision p s) in
        output (Nat.iter (S n) (fun d => (registerColor color d).2)
                  (setStream (Some s) p new_QTikzPicture))
        = buffer s +:+ definecolor_text s0 (canonical_name color) color).
Proof.
  assert (Hiter : forall d n,
             Nat.iter (S n) (fun d => (registerColor color d).2) d
             = (registerColor color d).2).
  { intros d n. induction n as [|n IH]; [reflexivity|].
    change (Nat.iter (S (S n)) (fun d => (registerColor color d).2) d)
      with ((registerColor color
               (Nat.iter (S n) (fun d => (registerColor color d).2) d)).2).
    rewrite IH.
    now rewrite (registerColor_again color d (registerColor color d).2). }
  assert (Hfirst : forall d s,
             ts d = Some s -> predefined color = None ->
             colors d !! canonical_name color = None ->
             output (registerColor color d).2
             = output d +:+ definecolor_text s (canonical_name color) color).
  { intros d s Hts Hp Hc.
    destruct (registerColor_output color d)
      as [Hsame | [Hnone | (s' & Hts' & _ & _ & Hout)]].
    - exfalso. pose proof (registerColor_colors color d) as Hreg.
      rewrite Hsame in Hreg. unfold registry_after, contains in Hreg.
      rewrite Hp, Hc in Hreg.
      assert (Hl : colors d !! canonical_name color = Some true)
        by (rewrite Hreg at 1; apply lookup_insert_eq).
      congruence.
    - congruence.
    - assert (s' = s) by congruence. now subst s'. }
  split; [|split; [|split; [|split; [|split; [|split; [|split; [|split]]]]]]].
  - intros d1 d2. now rewrite !registerColor_name.
  - exact Hiter.
  - intros d. destruct (registerColor_output color d)
      as [Hsame | [Hnone | (s & Hts & Hp & Hc & Hout)]]; auto.
    right; right. exists s. split; [assumption|].
    now rewrite registerColor_name, Hp.
  - intros d cs d'. apply registerColor_again.
    intros k v. apply base_run_keeps.
  - intros d cs d'. apply registerColor_again.
    intros k v. apply ext_run_keeps.
  - exact Hfirst.
  - intros d cs k v. apply base_run_keeps.
  - intros d cs k v. apply ext_run_keeps.
  - intros s p n Hp s0. rewrite Hiter.
    now rewrite (Hfirst (setStream (Some s) p new_QTikzPicture) s0).
Qed.

(** C6. The canonical name is injective on colours that are not predefined:
    two distinct colours with channels in 0..255, neither of them one of the
    eight predefined ones, get distinct names from [registerColor], in
    whatever state each call is made. *)
Theorem canonical_names_are_distinct (c1 c2 : QColor) (d1 d2 : QTikzPicturePrivate) :
  color_ok c1 -> color_ok c2 ->
  predefined c1 = None -> predefined c2 = None ->
  c1 <> c2 ->
  (registerColor c1 d1).1 <> (registerColor c2 d2).1.
Proof.
  intros Hok1 Hok2 Hp1 Hp2 Hne Heq.
  rewrite !registerColor_name, Hp1, Hp2 in Heq.
  apply Hne. now apply canonical_name_inj.
Qed.

(** C7. [setStream] with a sink stores the precision clamped at zero and
    selects fixed notation on the sink, but hands the sink the precision it
    was given, not the clamped one: for a negative [p] the sink ends up with
    precision 6 while the emitter stores 0. *)
Theorem setStream_precisions (d : QTikzPicturePrivate) (s : QTextStream) (p : Z) :
  precision (setStream (Some s) p d) = Z.max 0 p
  /\ ts (setStream (Some s) p d)
     = Some (mkStream (buffer s) (if p <? 0 then 6 else p) FixedNotation).
Proof. split; reflexivity. Qed.

End RegistrarProperties.

(** The failing input of C7: a precision of -1. *)
Example setStream_negative_precision :
  let d := @setStream (Some fresh_stream) (-1) new_QTikzPicture in
  precision d = 0 /\ (realNumberPrecision <$> ts d) = Some 6.
Proof. split; reflexivity. Qed.

Lemma registerColor_idempotent_witness :
  let d0 := sample_emitter in
  let c := mkColor 100 200 0 in
  output (Nat.iter 3 (fun d => (@registerColor fixedFormat c d).2) d0)
  = "\definecolor{cwucyqq}{rgb}{0.39, 0.78, 0.00}" +:+ nl.
Proof.
  intros d0 c.
  destruct (@registerColor_idempotent fixedFormat c) as (_ & Hiter & _ & _ & _ & Hfirst & _).
  rewrite (Hiter d0 2%nat).
  rewrite (Hfirst d0 (mkStream "" 2 FixedNotation)); reflexivity.
Defined.

Lemma canonical_names_are_distinct_witness :
  (@registerColor fixedFormat (mkColor 100 200 0) new_QTikzPicture).1
  <> (@registerColor fixedFormat (mkColor 100 200 1) new_QTikzPicture).1.
Proof.
  apply (@canonical_names_are_distinct fixedFormat).
  - unfold color_ok, channel_ok; simpl; lia.
  - unfold color_ok, channel_ok; simpl; lia.
  - reflexivity.
  - reflexivity.
  - discriminate.
Defined.

(** ** Calls without a sink *)

Section NullSink.
Context `{NumberFormat}.

Lemma writePath_without_sink (cmd options path : string) (d : QTikzPicturePrivate) :
  ts d = None -> Ext.writePath cmd options path d = d.
Proof. intros Hts. unfold Ext.writePath. now rewrite Hts. Qed.

Lemma registerColor_without_sink (color : QColor) (d : QTikzPicturePrivate) :
  ts d = None -> ts (registerColor color d).2 = None.
Proof.
  intros Hts. unfold registerColor.
  destruct (predefined color); [assumption|].
  destruct (contains (colors d) (canonical_name color)); simpl; [assumption|].
  now rewrite Hts.
Qed.

(** C8, as the code has it.  Without a sink no call of either revision
    other than [setStream] writes anything or creates a sink, and none
    changes the precision; every call leaves the whole state as it was,
    except [registerColor], which still records the colour in the registry
    (a name that is not predefined and not yet present is inserted). *)
Theorem calls_without_sink (d : QTikzPicturePrivate) :
  ts d = None ->
  (forall c : Base.Call, Base.is_setStream c = false ->
     ts (Base.exec c d) = None
     /\ output (Base.exec c d) = ""
     /\ precision (Base.exec c d) = precision d
     /\ match c with
        | Base.RegisterColor color =>
            colors (Base.exec c d) = registry_after color (colors d)
        | _ => Base.exec c d = d
        end)
  /\ (forall c : Ext.Call, Ext.is_setStream c = false ->
        ts (Ext.exec c d) = None
        /\ output (Ext.exec c d) = ""
        /\ precision (Ext.exec c d) = precision d
        /\ match c with
           | Ext.RegisterColor color =>
               colors (Ext.exec c d) = registry_after color (colors d)
           | _ => Ext.exec c d = d
           end).
Proof.
  intros Hts.
  assert (Hreg : forall color,
             ts (registerColor color d).2 = None
             /\ output (registerColor color d).2 = ""
             /\ precision (registerColor color d).2 = precision d
             /\ colors (registerColor color d).2 = registry_after color (colors d)).
  { intros color. pose proof (registerColor_without_sink color d Hts) as Hn.
    unfold output. rewrite Hn.
    auto using registerColor_precision, registerColor_colors. }
  assert (Hsame : forall d', d' = d ->
             ts d' = None /\ output d' = "" /\ precision d' = precision d /\ d' = d).
  { intros d' ->. unfold output. now rewrite Hts. }
  split; intros c Hc; destruct c; try discriminate Hc; cbn [Base.exec Ext.exec];
    try apply Hreg; apply Hsame.
  all: try apply writePath_without_sink; try assumption.
  all: unfold begin, end_, beginScope, endScope, newline, comment, line_points,
         insert_chars, insert_QString, insert_double, insert_int,
         Base.path, Base.path_rect, Base.clip, Base.clip_rect, Base.circle, Base.line;
       now rewrite Hts.
Qed.

End NullSink.

Lemma calls_without_sink_witness :
  let c := mkColor 100 200 0 in
  @Base.exec fixedFormat (Base.Comment "frame") new_QTikzPicture = new_QTikzPicture
  /\ colors (@Ext.exec fixedFormat (Ext.RegisterColor c) new_QTikzPicture)
     = registry_after c ∅.
Proof.
  intros c.
  destruct (@calls_without_sink fixedFormat new_QTikzPicture eq_refl) as [Hbase Hext].
  split.
  - apply (Hbase (Base.Comment "frame") eq_refl).
  - apply (Hext (Ext.RegisterColor c) eq_refl).
Defined.

(** Without a sink [registerColor] still changes the state of the emitter:
    the registry of a new emitter gains the name of the colour. *)
Lemma registerColor_without_sink_changes_state :
  ts new_QTikzPicture = None
  /\ (@registerColor fixedFormat (mkColor 100 200 0) new_QTikzPicture).2
     <> new_QTikzPicture.
Proof.
  split; [reflexivity|]. intros Heq.
  assert (Hl : colors (@registerColor fixedFormat (mkColor 100 200 0) new_QTikzPicture).2
               !! "cwucyqq" = colors new_QTikzPicture !! "cwucyqq")
    by now rewrite Heq.
  vm_compute in Hl. discriminate Hl.
Qed.

(** ** Circles, lines and polygons *)

(** Equalities of written text, up to the grouping of the pieces. *)
Ltac text_eq := rewrite ?app_assoc_s; reflexivity.

Section Shapes.
Context `{NumberFormat}.

Lemma Qleb0_true (v : qreal) : (v <= 0)%Q -> Qleb0 v = true.
Proof. intros Hv. now apply Qle_bool_iff. Qed.

Lemma Qleb0_false (v : qreal) : (0 < v)%Q -> Qleb0 v = false.
Proof.
  intros Hv. unfold Qleb0. destruct (Qle_bool v 0) eqn:E; [|reflexivity].
  apply Qle_bool_iff in E. exfalso. exact (Qlt_not_le _ _ Hv E).
Qed.

Lemma Qltb0_true (v : qreal) : (v < 0)%Q -> Qltb0 v = true.
Proof.
  intros Hv. unfold Qltb0. destruct (Qle_bool 0 v) eqn:E; [|reflexivity].
  apply Qle_bool_iff in E. exfalso. exact (Qlt_not_le _ _ Hv E).
Qed.

Lemma Qltb0_false (v : qreal) : (0 <= v)%Q -> Qltb0 v = false.
Proof. intros Hv. unfold Qltb0. apply Qle_bool_iff in Hv. now rewrite Hv. Qed.

Lemma writePath_output (cmd options path : string) (d : QTikzPicturePrivate) (s : QTextStream) :
  ts d = Some s -> isEmpty path = false ->
  output (Ext.writePath cmd options path d)
  = output d +:+ cmd +:+ bracket options +:+ " " +:+ path +:+ ";" +:+ nl.
Proof.
  intros Hts Hpath. unfold Ext.writePath, output at 2, bracket.
  rewrite Hts, Hpath.
  destruct (isEmpty options); cbn [negb]; stream_norm; text_eq.
Qed.

(** C4, as the code has it.  The [circle] command writes nothing for a
    radius that is zero or negative; the circle overloads of [path], [draw]
    and [fill] write nothing for a negative radius only.  With a sink, the
    [circle] command for a positive radius, and the overloads for a radius
    that is zero or positive, append text that contains ["circle ("], the
    rendered radius and ["cm)"]. *)
Theorem circle_commands (center : QPointF) (radius : qreal) (options : string)
  (d : QTikzPicturePrivate) :
  ((radius <= 0)%Q -> Base.circle center radius options d = d)
  /\ (forall s, ts d = Some s -> (0 < radius)%Q ->
        exists pre post,
          output (Base.circle center radius options d)
          = output d +:+ pre +:+ "circle (" +:+ streamReal s radius +:+ "cm)" +:+ post)
  /\ (forall f, In f [Ext.path; Ext.draw; Ext.fill] ->
        (radius < 0)%Q -> f (Ext.OfCircle center radius) options d = d)
  /\ (forall f s, In f [Ext.path; Ext.draw; Ext.fill] ->
        ts d = Some s -> (0 <= radius)%Q ->
        exists pre post,
          output (f (Ext.OfCircle center radius) options d)
          = output d +:+ pre +:+ "circle ("
            +:+ formatReal SmartNotation (precision d) radius +:+ "cm)" +:+ post).
Proof.
  split; [|split; [|split]].
  - intros Hr. unfold Base.circle. rewrite (Qleb0_true _ Hr).
    now destruct (ts d).
  - intros s Hts Hr. unfold Base.circle, output at 2.
    rewrite Hts, (Qleb0_false _ Hr).
    exists ("\draw" +:+ bracket options +:+ " (" +:+ streamReal s (px center)
            +:+ ", " +:+ streamReal s (py center) +:+ ") "),
           (";" +:+ nl).
    unfold bracket. destruct (isEmpty options); cbn [negb]; stream_norm; text_eq.
  - intros f Hf Hr.
    assert (Hnone : Ext.toTikzPath_shape d (Ext.OfCircle center radius) = "").
    { cbn [Ext.toTikzPath_shape]. unfold Ext.toTikzPath_circle.
      now rewrite (Qltb0_true _ Hr). }
    assert (Hw : forall cmd, Ext.writePath cmd options "" d = d).
    { intros cmd. unfold Ext.writePath. now destruct (ts d). }
    simpl in Hf. destruct Hf as [<- | [<- | [<- | []]]];
      unfold Ext.path, Ext.draw, Ext.fill; rewrite Hnone; apply Hw.
  - intros f s Hf Hts Hr.
    assert (Hw : forall cmd, exists pre post,
               output (Ext.writePath cmd options
                         (Ext.toTikzPath_shape d (Ext.OfCircle center radius)) d)
               = output d +:+ pre +:+ "circle ("
                 +:+ formatReal SmartNotation (precision d) radius +:+ "cm)" +:+ post).
    { intros cmd. cbn [Ext.toTikzPath_shape]. unfold Ext.toTikzPath_circle.
      rewrite (Qltb0_false _ Hr).
      exists (cmd +:+ bracket options +:+ " " +:+ Ext.toCoord d center +:+ " "),
             (";" +:+ nl).
      rewrite (writePath_output _ _ _ _ s Hts) by reflexivity. text_eq. }
    simpl in Hf. destruct Hf as [<- | [<- | [<- | []]]];
      unfold Ext.path, Ext.draw, Ext.fill; apply Hw.
Qed.

(** C5. For a polygon of two or more points the polygon compiler returns
    the coordinate of the first point and nothing else, whether the polygon
    is closed or not: [end] is 1, so the loop body runs for [i = 0] only. *)
Theorem polygon_compiles_to_first_point
  (d : QTikzPicturePrivate) (a b : QPointF) (rest : list QPointF) :
  Ext.toTikzPath_polygon d (a :: b :: rest) = Ext.toCoord d a.
Proof.
  unfold Ext.toTikzPath_polygon.
  assert (Hend : Ext.polygon_end (a :: b :: rest) = 1).
  { unfold Ext.polygon_end.
    destruct (polygon_isClosed (a :: b :: rest)); cbn [Z.b2z length];
      destruct (_ =? 0) eqn:E; try reflexivity; apply Z.eqb_eq in E; lia. }
  rewrite Hend. reflexivity.
Qed.

(** C10. [line(p, q, options)] with [p] and [q] the same point and a sink
    writes the whole draw command, both coordinates included: nothing
    filters the degenerate line.  Without options the text is
    ["\draw (x, y) -- (x, y);"] and a newline. *)
Theorem line_of_equal_points (p : QPointF) (options : string)
  (d : QTikzPicturePrivate) (s : QTextStream) :
  ts d = Some s ->
  let x := streamReal s (px p) in
  let y := streamReal s (py p) in
  output (Base.line p p options d)
  = output d +:+ "\draw" +:+ bracket options
    +:+ " (" +:+ x +:+ ", " +:+ y +:+ ") -- (" +:+ x +:+ ", " +:+ y +:+ ");" +:+ nl
  /\ output (Base.line p p "" d)
     = output d +:+ "\draw (" +:+ x +:+ ", " +:+ y +:+ ") -- ("
       +:+ x +:+ ", " +:+ y +:+ ");" +:+ nl.
Proof.
  intros Hts x y. subst x y. unfold Base.line, output at 2 4, bracket.
  rewrite Hts. split.
  - destruct (isEmpty options); cbn [negb]; stream_norm; text_eq.
  - cbn [isEmpty negb]. stream_norm. text_eq.
Qed.

End Shapes.

Lemma circle_commands_witness :
  @Base.circle fixedFormat (mkPoint 0%Q 0%Q) 0%Q "" sample_emitter = sample_emitter
  /\ @Ext.draw fixedFormat (Ext.OfCircle (mkPoint 0%Q 0%Q) (-1)%Q) "" sample_emitter = sample_emitter
  /\ (exists pre post,
        output (@Ext.draw fixedFormat (Ext.OfCircle (mkPoint 0%Q 0%Q) 0%Q) "" sample_emitter)
        = output sample_emitter +:+ pre +:+ "circle (" +:+ "0.00" +:+ "cm)" +:+ post)
  /\ (exists pre post,
        output (@Base.circle fixedFormat (mkPoint 0%Q 0%Q) (3 # 2)%Q "" sample_emitter)
        = output sample_emitter +:+ pre +:+ "circle (" +:+ "1.50" +:+ "cm)" +:+ post).
Proof.
  split; [|split; [|split]].
  - apply (@circle_commands fixedFormat (mkPoint 0%Q 0%Q) 0%Q "" sample_emitter).
    vm_compute. discriminate.
  - apply (proj1 (proj2 (proj2
      (@circle_commands fixedFormat (mkPoint 0%Q 0%Q) (-1)%Q "" sample_emitter)))).
    + simpl. auto.
    + reflexivity.
  - apply (proj2 (proj2 (proj2
      (@circle_commands fixedFormat (mkPoint 0%Q 0%Q) 0%Q "" sample_emitter)))
      Ext.draw (mkStream "" 2 FixedNotation)).
    + simpl. auto.
    + reflexivity.
    + vm_compute. discriminate.
  - apply (proj1 (proj2
      (@circle_commands fixedFormat (mkPoint 0%Q 0%Q) (3 # 2)%Q "" sample_emitter))
      (mkStream "" 2 FixedNotation)).
    + reflexivity.
    + reflexivity.
Defined.

(** A circle overload with radius zero writes a command. *)
Lemma circle_overload_radius_zero_writes :
  output sample_emitter = ""
  /\ output (@Ext.draw fixedFormat (Ext.OfCircle (mkPoint 0%Q 0%Q) 0%Q) "" sample_emitter)
     = "\draw (0.00, 0.00) circle (0.00cm);" +:+ nl.
Proof. split; reflexivity. Qed.

(** The failing input of C5: an open polygon of three points. *)
Example polygon_of_three_points :
  @Ext.toTikzPath_polygon fixedFormat sample_emitter
    [mkPoint 0%Q 0%Q; mkPoint 1%Q 0%Q; mkPoint 1%Q 1%Q] = "(0.00, 0.00)".
Proof. reflexivity. Qed.

Lemma line_of_equal_points_witness :
  output (@Base.line fixedFormat (mkPoint 1%Q 2%Q) (mkPoint 1%Q 2%Q) "" sample_emitter)
  = "\draw (1.00, 2.00) -- (1.00, 2.00);" +:+ nl.
Proof.
  apply (proj2 (@line_of_equal_points fixedFormat (mkPoint 1%Q 2%Q) "thick" sample_emitter
                  (mkStream "" 2 FixedNotation) eq_refl)).
Defined.

(** * Further properties of the code *)

(** ** Sub-paths of a compiled path *)

Lemma isEmpty_app_l (a b : string) : isEmpty a = false -> isEmpty (a +:+ b) = false.
Proof. destruct a; [discriminate | reflexivity]. Qed.

Lemma isEmpty_app_r (a b : string) : isEmpty b = false -> isEmpty (a +:+ b) = false.
Proof. destruct a; [now rewrite app_nil_l_s | reflexivity]. Qed.

Lemma count_moves_cons (e : Element) (p : QPainterPath) :
  count_moves (e :: p) = ((if is_move e then 1 else 0) + count_moves p)%nat.
Proof. unfold count_moves. cbn [List.filter]. now destruct (is_move e). Qed.

Lemma no_moves_Forall (p : QPainterPath) :
  count_moves p = O -> Forall (fun e => etype e <> MoveToElement) p.
Proof.
  induction p as [|e p IH]; intros Hc; [constructor|].
  rewrite count_moves_cons in Hc. unfold is_move in Hc.
  destruct (etype e) eqn:Et; try discriminate Hc; constructor; try (apply IH; lia);
    congruence.
Qed.

Section SubPaths.
Variable toCoord : QPointF -> string.
Hypothesis toCoord_not_empty : forall pt, isEmpty (toCoord pt) = false.

Lemma step_currentPath_not_empty (st : Locals) (e : Element) :
  isEmpty (currentPath st) = false -> isEmpty (currentPath (step toCoord st e)) = false.
Proof.
  intros Hne. unfold step.
  destruct (etype e); cbn [currentPath].
  - apply isEmpty_app_r, toCoord_not_empty.
  - now apply isEmpty_app_l.
  - now apply isEmpty_app_l.
  - destruct (currentControlPoint st =? 1); cbn [currentPath]; [now apply isEmpty_app_l|].
    destruct (currentControlPoint st =? 2); cbn [currentPath]; [now apply isEmpty_app_l|].
    assumption.
Qed.

Lemma step_pathList_length (st : Locals) (e : Element) :
  isEmpty (currentPath st) = false ->
  length (pathList (step toCoord st e))
  = (length (pathList st) + (if is_move e then 1 else 0))%nat.
Proof.
  intros Hne. unfold step, is_move.
  destruct (etype e); cbn [pathList].
  - rewrite Hne. cbn [negb pathList]. rewrite length_app. reflexivity.
  - lia.
  - lia.
  - destruct (currentControlPoint st =? 1); cbn [pathList]; [lia|].
    destruct (currentControlPoint st =? 2); cbn [pathList]; lia.
Qed.

Lemma fold_step_length (p : QPainterPath) (st : Locals) :
  isEmpty (currentPath st) = false ->
  length (pathList (fold_left (step toCoord) p st))
  = (length (pathList st) + count_moves p)%nat.
Proof.
  revert st. induction p as [|e p IH]; intros st Hne.
  - cbn [fold_left]. unfold count_moves. cbn. lia.
  - cbn [fold_left]. rewrite IH by now apply step_currentPath_not_empty.
    rewrite step_pathList_length by assumption. rewrite count_moves_cons. lia.
Qed.

Lemma step_closed (st : Locals) (e : Element) :
  Forall closed_text (pathList st) -> Forall closed_text (pathList (step toCoord st e)).
Proof.
  intros Hall. unfold step.
  destruct (etype e); cbn [pathList]; try assumption.
  - destruct (negb (isEmpty (currentPath st))); cbn [pathList]; [|assumption].
    apply Forall_app. split; [assumption|].
    constructor; [|constructor]. now exists (currentPath st).
  - destruct (currentControlPoint st =? 1); cbn [pathList]; [assumption|].
    destruct (currentControlPoint st =? 2); cbn [pathList]; assumption.
Qed.

Lemma fold_step_closed (p : QPainterPath) (st : Locals) :
  Forall closed_text (pathList st) ->
  Forall closed_text (pathList (fold_left (step toCoord) p st)).
Proof.
  revert st. induction p as [|e p IH]; intros st Hall; [assumption|].
  cbn [fold_left]. now apply IH, step_closed.
Qed.

Lemma walk_counts_moves (x y : qreal) (rest : QPainterPath) :
  let p := mkElement x y MoveToElement :: rest in
  length (pathList (walk toCoord p)) = count_moves rest
  /\ Forall closed_text (pathList (walk toCoord p)).
Proof.
  intros p. subst p. unfold walk. cbn [fold_left]. split.
  - rewrite fold_step_length; [reflexivity|].
    unfold step. cbn. apply toCoord_not_empty.
  - apply fold_step_closed. unfold step. cbn. constructor.
Qed.

Lemma walk_without_later_move (e : Element) (rest : QPainterPath) :
  count_moves rest = O -> pathList (walk toCoord (e :: rest)) = [].
Proof.
  intros Hc. change (e :: rest) with ([e] ++ rest).
  rewrite trailing_subpath_not_in_result by now apply no_moves_Forall.
  unfold walk. cbn [fold_left]. unfold step.
  destruct (etype e); cbn; try reflexivity.
Qed.

End SubPaths.

Section PathExtras.
Context `{NumberFormat}.

Lemma base_toCoord_not_empty (pt : QPointF) : isEmpty (Base.toCoord pt) = false.
Proof. reflexivity. Qed.

Lemma ext_toCoord_not_empty (d : QTikzPicturePrivate) (pt : QPointF) :
  isEmpty (Ext.toCoord d pt) = false.
Proof. reflexivity. Qed.

(** For a path that starts with a [MoveTo], the list of sub-paths the
    compiler joins has one entry for each later [MoveTo], and every entry
    ends with [" -- cycle"]; so of [n] sub-paths the first [n - 1] are
    returned, all closed. *)
Theorem one_closed_subpath_per_later_move
  (d : QTikzPicturePrivate) (x y : qreal) (rest : QPainterPath) :
  let p := mkElement x y MoveToElement :: rest in
  length (pathList (walk Base.toCoord p)) = count_moves rest
  /\ Forall closed_text (pathList (walk Base.toCoord p))
  /\ length (pathList (walk (Ext.toCoord d) p)) = count_moves rest
  /\ Forall closed_text (pathList (walk (Ext.toCoord d) p)).
Proof.
  intros p.
  destruct (walk_counts_moves Base.toCoord base_toCoord_not_empty x y rest) as [Hb1 Hb2].
  destruct (walk_counts_moves (Ext.toCoord d) (ext_toCoord_not_empty d) x y rest)
    as [He1 He2].
  auto.
Qed.

Lemma toTikzPath_without_later_move (toCoord : QPointF -> string)
  (e : Element) (rest : QPainterPath) :
  count_moves rest = O -> toTikzPath_path toCoord (e :: rest) = "".
Proof.
  intros Hc. unfold toTikzPath_path.
  destruct (path_isEmpty (e :: rest)); [reflexivity|].
  now rewrite walk_without_later_move.
Qed.

(** A path with a single sub-path (no [MoveTo] after its first element)
    makes every path command of both revisions write nothing: the state of
    the emitter, sink included, is as before the call. *)
Theorem single_subpath_writes_nothing
  (e : Element) (rest : QPainterPath) (options : string) (d : QTikzPicturePrivate) :
  count_moves rest = O ->
  Base.path (e :: rest) options d = d
  /\ Base.clip (e :: rest) d = d
  /\ Ext.path (Ext.OfPath (e :: rest)) options d = d
  /\ Ext.draw (Ext.OfPath (e :: rest)) options d = d
  /\ Ext.fill (Ext.OfPath (e :: rest)) options d = d
  /\ Ext.clip (e :: rest) d = d.
Proof.
  intros Hc.
  assert (Hw : forall cmd opts, Ext.writePath cmd opts "" d = d).
  { intros cmd opts. unfold Ext.writePath. now destruct (ts d). }
  unfold Base.path, Base.clip, Ext.path, Ext.draw, Ext.fill, Ext.clip.
  cbn [Ext.toTikzPath_shape]. unfold Base.toTikzPath, Ext.toTikzPath.
  rewrite !toTikzPath_without_later_move by assumption.
  cbn [isEmpty]. repeat split; try apply Hw; now destruct (ts d).
Qed.

(** A cubic segment: after any elements, a [CurveTo] and its two
    [CurveToData] elements append
    [" .. controls c1 and c2 .. end"] to the sub-path in progress and leave
    the counter of pending control points at 0, whatever it was before. *)
Theorem cubic_segment_text (toCoord : QPointF -> string) (p : QPainterPath)
  (x1 y1 x2 y2 x3 y3 : qreal) :
  let st := walk toCoord p in
  walk toCoord (p ++ [mkElement x1 y1 CurveToElement;
                      mkElement x2 y2 CurveToDataElement;
                      mkElement x3 y3 CurveToDataElement])
  = mkLocals (pathList st)
      (currentPath st +:+ " .. controls " +:+ toCoord (mkPoint x1 y1)
       +:+ " and " +:+ toCoord (mkPoint x2 y2)
       +:+ " .. " +:+ toCoord (mkPoint x3 y3))
      0.
Proof.
  intros st. rewrite walk_app. fold st. cbn [fold_left]. unfold step. cbn.
  now rewrite !app_assoc_s.
Qed.

End PathExtras.

Lemma single_subpath_writes_nothing_witness :
  @Base.path fixedFormat
    [mkElement 0%Q 0%Q MoveToElement; mkElement 1%Q 0%Q LineToElement;
     mkElement 1%Q 1%Q LineToElement] "thick" sample_emitter = sample_emitter.
Proof.
  apply (@single_subpath_writes_nothing fixedFormat
           (mkElement 0%Q 0%Q MoveToElement)
           [mkElement 1%Q 0%Q LineToElement; mkElement 1%Q 1%Q LineToElement]
           "thick" sample_emitter).
  reflexivity.
Defined.

(** ** Rectangles, polygons and the two revisions side by side *)

Section ShapeExtras.
Context `{NumberFormat}.

Lemma writePath_empty (cmd options : string) (d : QTikzPicturePrivate) :
  Ext.writePath cmd options "" d = d.
Proof. unfold Ext.writePath. now destruct (ts d). Qed.

(** A rectangle whose width or height is zero or negative makes every
    rectangle command of every revision write nothing. *)
Theorem empty_rectangle_writes_nothing
  (rect : QRectF) (options : string) (d : QTikzPicturePrivate) :
  (rw rect <= 0)%Q \/ (rh rect <= 0)%Q ->
  Base.path_rect rect options d = d
  /\ Base.clip_rect rect d = d
  /\ Ext.path (Ext.OfRect rect) options d = d
  /\ Ext.draw (Ext.OfRect rect) options d = d
  /\ Ext.fill (Ext.OfRect rect) options d = d
  /\ Ext.clip_rect rect d = d
  /\ Legacy.path_rect rect options d = d
  /\ Legacy.clip_rect rect d = d.
Proof.
  intros Hdim.
  assert (Hempty : rect_isEmpty rect = true).
  { unfold rect_isEmpty. destruct Hdim as [Hw | Hh].
    - now rewrite (Qleb0_true _ Hw).
    - rewrite (Qleb0_true _ Hh). apply orb_true_r. }
  unfold Base.path_rect, Base.clip_rect, Ext.path, Ext.draw, Ext.fill, Ext.clip_rect,
    Legacy.path_rect, Legacy.clip_rect.
  cbn [Ext.toTikzPath_shape]. unfold Base.toTikzPath_rect, Ext.toTikzPath_rect.
  rewrite Hempty. cbn [isEmpty].
  repeat split; try apply writePath_empty; now destruct (ts d).
Qed.

Lemma toCoord_precision_6 (d : QTikzPicturePrivate) :
  precision d = 6 -> Ext.toCoord d = Base.toCoord.
Proof. intros Hp. unfold Ext.toCoord, Base.toCoord. now rewrite Hp. Qed.

Lemma writePath_as_command (name options path : string) (d : QTikzPicturePrivate) :
  Ext.writePath name options path d
  = match ts d with
    | None => d
    | Some s =>
        if isEmpty path then d
        else
          let tikzCommand :=
            if isEmpty options then name +:+ " " else name +:+ "[" +:+ options +:+ "] " in
          with_ts d (s << tikzCommand << path << (";" +:+ nl))
    end.
Proof.
  unfold Ext.writePath. destruct (ts d) as [s|]; [|reflexivity].
  destruct (isEmpty path); [reflexivity|].
  destruct (isEmpty options); cbn [negb]; unfold with_ts, put; cbn [buffer
    realNumberPrecision realNumberNotation]; do 3 f_equal; text_eq.
Qed.

(** Routing the commands through [writePath] did not change what they
    write: when the emitter's precision is 6 (the digits [toCoord] used
    before it took the precision), [path] and [clip] for painter paths and
    rectangles leave the emitter in the same state in both revisions. *)
Theorem writePath_keeps_the_output
  (p : QPainterPath) (rect : QRectF) (options : string) (d : QTikzPicturePrivate) :
  precision d = 6 ->
  Ext.path (Ext.OfPath p) options d = Base.path p options d
  /\ Ext.path (Ext.OfRect rect) options d = Base.path_rect rect options d
  /\ Ext.clip p d = Base.clip p d
  /\ Ext.clip_rect rect d = Base.clip_rect rect d.
Proof.
  intros Hp.
  unfold Ext.path, Ext.clip, Ext.clip_rect. cbn [Ext.toTikzPath_shape].
  unfold Ext.toTikzPath, Ext.toTikzPath_rect. rewrite (toCoord_precision_6 d Hp).
  rewrite !writePath_as_command.
  unfold Base.path, Base.path_rect, Base.clip, Base.clip_rect.
  fold (Base.toTikzPath p). fold (Base.toTikzPath_rect rect).
  repeat split; destruct (ts d); try reflexivity;
    destruct (isEmpty _); try reflexivity.
Qed.

(** A polygon with fewer than two points compiles to the empty text, and
    [path], [draw] and [fill] write nothing for it. *)
Theorem small_polygon_writes_nothing
  (polygon : QPolygonF) (options : string) (d : QTikzPicturePrivate) :
  (length polygon <= 1)%nat ->
  Ext.toTikzPath_polygon d polygon = ""
  /\ Ext.path (Ext.OfPolygon polygon) options d = d
  /\ Ext.draw (Ext.OfPolygon polygon) options d = d
  /\ Ext.fill (Ext.OfPolygon polygon) options d = d.
Proof.
  intros Hlen.
  assert (Hnone : Ext.toTikzPath_polygon d polygon = "").
  { destruct polygon as [|pt [|pt' rest]]; [reflexivity| |cbn in Hlen; lia].
    unfold Ext.toTikzPath_polygon, Ext.polygon_end, polygon_isClosed, point_eqb.
    cbn [List.last]. rewrite !Qeq_bool_refl. reflexivity. }
  unfold Ext.path, Ext.draw, Ext.fill. cbn [Ext.toTikzPath_shape]. rewrite Hnone.
  repeat split; apply writePath_empty.
Qed.

(** A picture of one line: [begin], [draw] for two points, and [end] append
    exactly three lines to the sink, the opening bracket, the draw command
    ended by a semicolon, and the closing bracket. *)
Theorem picture_of_one_line (a b : QPointF) (pictureOptions options : string)
  (d : QTikzPicturePrivate) (s : QTextStream) :
  ts d = Some s ->
  output (end_ (Ext.draw (Ext.OfPoints a b) options (begin pictureOptions d)))
  = output d
    +:+ "\begin{tikzpicture}" +:+ bracket pictureOptions +:+ nl
    +:+ "\draw" +:+ bracket options +:+ " "
    +:+ Ext.toCoord d a +:+ " -- " +:+ Ext.toCoord d b +:+ ";" +:+ nl
    +:+ "\end{tikzpicture}" +:+ nl.
Proof.
  intros Hts. unfold begin, end_, Ext.draw, Ext.writePath, output at 2, bracket.
  cbn [Ext.toTikzPath_shape]. unfold Ext.toTikzPath_line. cbn [p1 p2].
  rewrite Hts.
  destruct (isEmpty pictureOptions); cbn [with_ts ts];
    rewrite isEmpty_app_l by reflexivity;
    destruct (isEmpty options); cbn [negb with_ts ts output];
    unfold Ext.toCoord; cbn [precision]; stream_norm; text_eq.
Qed.

End ShapeExtras.

Lemma empty_rectangle_writes_nothing_witness :
  @Base.path_rect fixedFormat (mkRect 1%Q 1%Q 0%Q 5%Q) "" sample_emitter = sample_emitter.
Proof.
  apply (@empty_rectangle_writes_nothing fixedFormat (mkRect 1%Q 1%Q 0%Q 5%Q) ""
           sample_emitter).
  left. vm_compute. discriminate.
Defined.

Lemma writePath_keeps_the_output_witness :
  let d := setStream (Some fresh_stream) 6 new_QTikzPicture in
  let p := [mkElement 0%Q 0%Q MoveToElement; mkElement 1%Q 1%Q LineToElement;
            mkElement 2%Q 2%Q MoveToElement] in
  @Ext.path fixedFormat (Ext.OfPath p) "red" d = @Base.path fixedFormat p "red" d.
Proof.
  intros d p.
  apply (@writePath_keeps_the_output fixedFormat p (mkRect 0%Q 0%Q 1%Q 1%Q) "red" d).
  reflexivity.
Defined.

Lemma small_polygon_writes_nothing_witness :
  @Ext.draw fixedFormat (Ext.OfPolygon [mkPoint 3%Q 4%Q]) "" sample_emitter = sample_emitter.
Proof.
  apply (@small_polygon_writes_nothing fixedFormat [mkPoint 3%Q 4%Q] "" sample_emitter).
  simpl. lia.
Defined.

Lemma picture_of_one_line_witness :
  output (end_ (@Ext.draw fixedFormat (Ext.OfPoints (mkPoint 0%Q 0%Q) (mkPoint 1%Q 1%Q))
                  "thick" (begin "" sample_emitter)))
  = "\begin{tikzpicture}" +:+ nl
    +:+ "\draw[thick] (0.00, 0.00) -- (1.00, 1.00);" +:+ nl
    +:+ "\end{tikzpicture}" +:+ nl.
Proof.
  apply (@picture_of_one_line fixedFormat (mkPoint 0%Q 0%Q) (mkPoint 1%Q 1%Q) "" "thick"
           sample_emitter (mkStream "" 2 FixedNotation)).
  reflexivity.
Defined.

(** ** Polylines, newlines and raw text *)

Section TextExtras.
Context `{NumberFormat}.

Lemma with_ts_same (d : QTikzPicturePrivate) (s : QTextStream) :
  ts d = Some s -> with_ts d s = d.
Proof. destruct d as [t c p]. cbn. now intros ->. Qed.

Lemma put_put (s : QTextStream) (a b : string) : s << a << b = s << (a +:+ b).
Proof. unfold put. cbn. f_equal. apply app_assoc_s. Qed.

Lemma put_nil (s : QTextStream) : s << "" = s.
Proof. destruct s. unfold put. cbn. now rewrite app_nil_r_s. Qed.

Lemma put_vertex_text (s : QTextStream) (p : QPointF) :
  put_vertex s p = s << vertex_text s p.
Proof.
  unfold put_vertex, vertex_text, put_real. rewrite !put_put.
  rewrite !streamReal_put. f_equal; try text_eq.
Qed.

Lemma vertex_text_put (s : QTextStream) (t : string) (p : QPointF) :
  vertex_text (s << t) p = vertex_text s p.
Proof. reflexivity. Qed.

Lemma fold_put_vertex (l : list QPointF) (s : QTextStream) :
  fold_left put_vertex l s = s << concat_map (vertex_text s) l.
Proof.
  revert s. induction l as [|p l IH]; intros s.
  - cbn. now rewrite put_nil.
  - cbn [fold_left concat_map]. rewrite IH, put_vertex_text, put_put.
    f_equal.
Qed.

(** [line] for a vector of points writes nothing for fewer than two
    points.  For more, it appends one draw command: every point but the last
    as ["(x, y) --"], then the last point and the semicolon. *)
Theorem line_points_text (options : string) (d : QTikzPicturePrivate) (s : QTextStream) :
  ts d = Some s ->
  (forall points, (length points < 2)%nat -> line_points points options d = d)
  /\ (forall front last,
        front <> [] ->
        output (line_points (front ++ [last]) options d)
        = output d +:+ "\draw" +:+ bracket options
          +:+ concat_map (vertex_text s) front
          +:+ " (" +:+ streamReal s (px last) +:+ ", " +:+ streamReal s (py last)
          +:+ ");" +:+ nl).
Proof.
  intros Hts. split.
  - intros points Hlen. unfold line_points. rewrite Hts.
    destruct (Z.of_nat (length points) <? 2) eqn:E; [reflexivity|].
    apply Z.ltb_ge in E. lia.
  - intros front last Hfront. unfold line_points, output at 2, bracket. rewrite Hts.
    assert (Hlen : (2 <= length (front ++ [last]))%nat).
    { rewrite length_app. destruct front; [congruence|]. cbn. lia. }
    destruct (Z.of_nat (length (front ++ [last])) <? 2) eqn:E;
      [apply Z.ltb_lt in E; lia|].
    rewrite last_last.
    replace (length (front ++ [last]) - 1)%nat with (length front)
      by (rewrite length_app; cbn; lia).
    rewrite firstn_app, firstn_all, Nat.sub_diag. cbn [firstn]. rewrite app_nil_r.
    rewrite fold_put_vertex.
    destruct (isEmpty options); cbn [negb]; stream_norm; text_eq.
Qed.

(** The polyline of two points is the line between them: [line] for the
    vector [[p; q]] leaves the emitter exactly as [line(p, q)] does. *)
Theorem line_points_of_two (p q : QPointF) (options : string) (d : QTikzPicturePrivate) :
  line_points [p; q] options d = Base.line p q options d.
Proof.
  unfold line_points, Base.line. destruct (ts d) as [s|]; [|reflexivity].
  change (Z.of_nat (length [p; q]) <? 2) with false.
  change (firstn (length [p; q] - 1) [p; q]) with [p].
  change (List.last [p; q] (mkPoint 0%Q 0%Q)) with q.
  cbn [fold_left]. rewrite put_vertex_text. unfold vertex_text, put_real.
  f_equal. rewrite !put_put, !streamReal_put.
  destruct (isEmpty options); cbn [negb]; rewrite ?put_put; f_equal; text_eq.
Qed.

Lemma newlines_snoc (n : nat) : newlines n +:+ nl = nl +:+ newlines n.
Proof.
  induction n as [|n IH]; [reflexivity|].
  cbn [newlines]. now rewrite app_assoc_s, IH.
Qed.

Lemma newlines_add (a b : nat) : newlines (a + b) = newlines a +:+ newlines b.
Proof.
  induction a as [|a IH]; [reflexivity|].
  cbn [newlines Nat.add]. now rewrite IH, app_assoc_s.
Qed.

Lemma iter_put_nl (n : nat) (s : QTextStream) :
  Nat.iter n (fun s => s << nl) s = s << newlines n.
Proof.
  induction n as [|n IH]; [cbn; now rewrite put_nil|].
  cbn [Nat.iter nat_rect]. change (nat_rect _ s _ n) with (Nat.iter n (fun s => s << nl) s).
  rewrite IH, put_put. cbn [newlines]. now rewrite newlines_snoc.
Qed.

(** [newline(count)] appends [count] newline characters; a count of zero or
    less changes nothing; and two calls with non-negative counts amount to
    one call with their sum. *)
Theorem newline_counts (d : QTikzPicturePrivate) :
  (forall count, count <= 0 -> newline count d = d)
  /\ (forall count s, ts d = Some s ->
        output (newline count d) = output d +:+ newlines (Z.to_nat count))
  /\ (forall a b, 0 <= a -> 0 <= b -> newline b (newline a d) = newline (a + b) d).
Proof.
  split; [|split].
  - intros count Hc. unfold newline. destruct (ts d) as [s|] eqn:Hts; [|reflexivity].
    replace (Z.to_nat count) with O by lia. cbn. now apply with_ts_same.
  - intros count s Hts. unfold newline, output at 2. rewrite Hts.
    now rewrite iter_put_nl.
  - intros a b Ha Hb. unfold newline.
    destruct (ts d) as [s|] eqn:Hts; [|now rewrite Hts].
    cbn [with_ts ts colors precision]. rewrite !iter_put_nl, put_put.
    rewrite Z2Nat.inj_add, newlines_add by assumption. reflexivity.
Qed.

(** Inserting two texts one after the other is inserting their
    concatenation, empty texts included. *)
Theorem insert_QString_app (a b : string) (d : QTikzPicturePrivate) :
  insert_QString b (insert_QString a d) = insert_QString (a +:+ b) d.
Proof.
  unfold insert_QString. destruct (ts d) as [s|] eqn:Hts; [|now rewrite Hts].
  destruct a as [|ca a].
  - cbn [isEmpty]. rewrite Hts, app_nil_l_s. reflexivity.
  - cbn [isEmpty with_ts ts]. rewrite app_cons_s. cbn [isEmpty].
    destruct b as [|cb b].
    + cbn [isEmpty]. now rewrite app_nil_r_s.
    + cbn [isEmpty]. unfold with_ts. cbn [colors precision]. now rewrite put_put.
Qed.

End TextExtras.

Lemma line_points_text_witness :
  output (@line_points fixedFormat
            ([mkPoint 0%Q 0%Q; mkPoint 1%Q 0%Q] ++ [mkPoint 1%Q 1%Q]) "" sample_emitter)
  = "\draw (0.00, 0.00) -- (1.00, 0.00) -- (1.00, 1.00);" +:+ nl.
Proof.
  apply (proj2 (@line_points_text fixedFormat "" sample_emitter
                  (mkStream "" 2 FixedNotation) eq_refl)).
  discriminate.
Defined.

Lemma newline_counts_witness :
  newline 2 (newline 1 sample_emitter) = newline 3 sample_emitter
  /\ newline (-4) sample_emitter = sample_emitter.
Proof.
  split.
  - apply (proj2 (proj2 (newline_counts sample_emitter)) 1 2); lia.
  - apply (proj1 (newline_counts sample_emitter) (-4)). lia.
Defined.

(** ** Names and the registry *)

Lemma translit_hexDigit_letter (n : Z) : is_letter (translit_char (hexDigit n)) = true.
Proof.
  unfold hexDigit. generalize (Z.to_nat n). intros k.
  do 16 (destruct k as [|k]; [reflexivity|]). reflexivity.
Qed.

Lemma canonical_name_chars (c : QColor) :
  canonical_name c =
  String "c"
    (String (translit_char (hexDigit (red c / 16)))
    (String (translit_char (hexDigit (red c mod 16)))
    (String (translit_char (hexDigit (green c / 16)))
    (String (translit_char (hexDigit (green c mod 16)))
    (String (translit_char (hexDigit (blue c / 16)))
    (String (translit_char (hexDigit (blue c mod 16))) EmptyString)))))).
Proof.
  rewrite canonical_name_unfold. unfold hex2.
  rewrite !app_cons_s, !app_nil_l_s. reflexivity.
Qed.

(** The name built for a colour is an identifier of seven lower-case
    letters: the letter [c] and six letters for the hexadecimal digits; no
    digit is left in it. *)
Theorem canonical_name_is_an_identifier (c : QColor) :
  String.length (canonical_name c) = 7%nat
  /\ string_forallb is_letter (canonical_name c) = true
  /\ String.get 0 (canonical_name c) = Some "c"%char.
Proof.
  rewrite canonical_name_chars. cbn [String.length string_forallb String.get].
  rewrite !translit_hexDigit_letter. repeat split.
Qed.

Lemma color_eqb_eq (a b : QColor) : color_eqb a b = true -> a = b.
Proof.
  destruct a, b. unfold color_eqb. cbn.
  intros Heq. apply andb_prop in Heq as [Heq Hb]. apply andb_prop in Heq as [Hr Hg].
  apply Z.eqb_eq in Hr, Hg, Hb. now subst.
Qed.

Lemma predefined_inv (c : QColor) (name : string) :
  predefined c = Some name ->
  (c = Qt_red /\ name = "red") \/ (c = Qt_green /\ name = "green")
  \/ (c = Qt_blue /\ name = "blue") \/ (c = Qt_black /\ name = "black")
  \/ (c = Qt_white /\ name = "white") \/ (c = Qt_cyan /\ name = "cyan")
  \/ (c = Qt_magenta /\ name = "magenta") \/ (c = Qt_yellow /\ name = "yellow").
Proof.
  unfold predefined. intros Hp.
  repeat match type of Hp with
         | (if color_eqb c ?k then _ else _) = _ =>
             let E := fresh "E" in
             destruct (color_eqb c k) eqn:E;
             [apply color_eqb_eq in E; injection Hp as <-; auto 20|]
         end.
  discriminate Hp.
Qed.

Lemma predefined_not_canonical (c c' : QColor) (name : string) :
  predefined c = Some name -> name <> canonical_name c'.
Proof.
  intros Hp Heq. rewrite canonical_name_chars in Heq.
  destruct (predefined_inv c name Hp)
    as [[_ ->]|[[_ ->]|[[_ ->]|[[_ ->]|[[_ ->]|[[_ ->]|[[_ ->]|[_ ->]]]]]]]];
    discriminate Heq.
Qed.

Section RegistryExtras.
Context `{NumberFormat}.

(** The name identifies the colour: two calls of [registerColor], in any
    states, that return the same name were made for the same colour
    (channels in 0..255), predefined colours included. *)
Theorem registerColor_name_identifies_color
  (c1 c2 : QColor) (d1 d2 : QTikzPicturePrivate) :
  color_ok c1 -> color_ok c2 ->
  (registerColor c1 d1).1 = (registerColor c2 d2).1 -> c1 = c2.
Proof.
  intros Hok1 Hok2. rewrite !registerColor_name.
  destruct (predefined c1) as [n1|] eqn:Hp1; destruct (predefined c2) as [n2|] eqn:Hp2.
  - intros ->.
    destruct (predefined_inv c1 n2 Hp1)
      as [[-> Hn]|[[-> Hn]|[[-> Hn]|[[-> Hn]|[[-> Hn]|[[-> Hn]|[[-> Hn]|[-> Hn]]]]]]]];
    destruct (predefined_inv c2 n2 Hp2)
      as [[-> Hm]|[[-> Hm]|[[-> Hm]|[[-> Hm]|[[-> Hm]|[[-> Hm]|[[-> Hm]|[-> Hm]]]]]]]];
    try reflexivity; rewrite Hn in Hm; discriminate Hm.
  - intros Heq. exfalso. exact (predefined_not_canonical c1 c2 n1 Hp1 Heq).
  - intros Heq. exfalso. symmetry in Heq.
    exact (predefined_not_canonical c2 c1 n2 Hp2 Heq).
  - now apply canonical_name_inj.
Qed.

Lemma registry_after_lookup (color : QColor) (m : gmap string bool) (k : string) (v : bool) :
  registry_after color m !! k = Some v <->
  m !! k = Some v
  \/ (m !! k = None /\ v = true /\ predefined color = None /\ canonical_name color = k).
Proof.
  unfold registry_after, contains.
  destruct (predefined color) eqn:Hp.
  { split; [auto | intros [Hk | (_ & _ & Hd & _)]; [assumption | discriminate Hd]]. }
  destruct (m !! canonical_name color) eqn:Hc.
  { split; [auto | intros [Hk | (Hn & _ & _ & <-)]; [assumption | congruence]]. }
  destruct (decide (canonical_name color = k)) as [<- | Hne].
  - rewrite lookup_insert_eq. split.
    + intros Hv. right. repeat split; congruence.
    + intros [Hk | (_ & -> & _)]; congruence.
  - rewrite lookup_insert_ne by assumption.
    split; [auto | intros [Hk | (_ & _ & _ & Hd)]; [assumption | contradiction]].
Qed.

Lemma base_run_lookup (cs : list Base.Call) (d : QTikzPicturePrivate) (k : string) (v : bool) :
  colors (Base.run cs d) !! k = Some v <->
  colors d !! k = Some v
  \/ (colors d !! k = None /\ v = true
      /\ exists color, In (Base.RegisterColor color) cs
           /\ predefined color = None /\ canonical_name color = k).
Proof.
  revert d. induction cs as [|c cs IH]; intros d.
  - cbn. split; [auto | intros [Hk | (_ & _ & color & [] & _)]; assumption].
  - cbn [Base.run fold_left]. fold (Base.run cs (Base.exec c d)).
    rewrite IH, base_exec_colors. split.
    + intros [Hk | (Hn & -> & color & Hin & Hp & Hname)].
      * destruct c; try (left; exact Hk).
        apply registry_after_lookup in Hk as [Hk | (Hn & -> & Hp & Hname)]; [now left|].
        right. repeat split; try assumption. exists color. cbn. auto.
      * assert (Hd : colors d !! k = None).
        { destruct c; try exact Hn.
          destruct (colors d !! k) as [w|] eqn:Hk; [|reflexivity].
          assert (registry_after color0 (colors d) !! k = Some w)
            by (apply registry_after_lookup; now left).
          congruence. }
        right. repeat split; try assumption. exists color. cbn. auto.
    + intros [Hk | (Hn & -> & color & Hin & Hp & Hname)].
      * left. destruct c; try exact Hk. apply registry_after_lookup. now left.
      * destruct Hin as [-> | Hin].
        -- left. apply registry_after_lookup. right. auto.
        -- destruct c; try (right; repeat split; try assumption; now exists color).
           destruct (registry_after color0 (colors d) !! k) as [w|] eqn:Hk.
           ++ left. apply registry_after_lookup in Hk as Hk'.
              destruct Hk' as [Hk' | (_ & -> & _)]; [congruence | reflexivity].
           ++ right. repeat split; try reflexivity. now exists color.
Qed.

Lemma ext_run_lookup (cs : list Ext.Call) (d : QTikzPicturePrivate) (k : string) (v : bool) :
  colors (Ext.run cs d) !! k = Some v <->
  colors d !! k = Some v
  \/ (colors d !! k = None /\ v = true
      /\ exists color, In (Ext.RegisterColor color) cs
           /\ predefined color = None /\ canonical_name color = k).
Proof.
  revert d. induction cs as [|c cs IH]; intros d.
  - cbn. split; [auto | intros [Hk | (_ & _ & color & [] & _)]; assumption].
  - cbn [Ext.run fold_left]. fold (Ext.run cs (Ext.exec c d)).
    rewrite IH, ext_exec_colors. split.
    + intros [Hk | (Hn & -> & color & Hin & Hp & Hname)].
      * destruct c; try (left; exact Hk).
        apply registry_after_lookup in Hk as [Hk | (Hn & -> & Hp & Hname)]; [now left|].
        right. repeat split; try assumption. exists color. cbn. auto.
      * assert (Hd : colors d !! k = None).
        { destruct c; try exact Hn.
          destruct (colors d !! k) as [w|] eqn:Hk; [|reflexivity].
          assert (registry_after color0 (colors d) !! k = Some w)
            by (apply registry_after_lookup; now left).
          congruence. }
        right. repeat split; try assumption. exists color. cbn. auto.
    + intros [Hk | (Hn & -> & color & Hin & Hp & Hname)].
      * left. destruct c; try exact Hk. apply registry_after_lookup. now left.
      * destruct Hin as [-> | Hin].
        -- left. apply registry_after_lookup. right. auto.
        -- destruct c; try (right; repeat split; try assumption; now exists color).
           destruct (registry_after color0 (colors d) !! k) as [w|] eqn:Hk.
           ++ left. apply registry_after_lookup in Hk as Hk'.
              destruct Hk' as [Hk' | (_ & -> & _)]; [congruence | reflexivity].
           ++ right. repeat split; try reflexivity. now exists color.
Qed.

(** What the registry of an emitter holds after any sequence of calls since
    its construction: exactly the canonical names of the colours that were
    passed to [registerColor] and are not predefined, each with the value
    [true]. *)
Theorem registry_holds_the_registered_names (k : string) (v : bool) :
  (forall cs : list Base.Call,
     colors (Base.run cs new_QTikzPicture) !! k = Some v <->
     v = true /\ exists color, In (Base.RegisterColor color) cs
                    /\ predefined color = None /\ canonical_name color = k)
  /\ (forall cs : list Ext.Call,
        colors (Ext.run cs new_QTikzPicture) !! k = Some v <->
        v = true /\ exists color, In (Ext.RegisterColor color) cs
                       /\ predefined color = None /\ canonical_name color = k).
Proof.
  split; intros cs.
  - rewrite base_run_lookup. cbn [new_QTikzPicture colors]. rewrite lookup_empty.
    split; [intros [Hk | (_ & Hv & Hex)]; [discriminate Hk | auto] | intros [Hv Hex]; auto].
  - rewrite ext_run_lookup. cbn [new_QTikzPicture colors]. rewrite lookup_empty.
    split; [intros [Hk | (_ & Hv & Hex)]; [discriminate Hk | auto] | intros [Hv Hex]; auto].
Qed.

End RegistryExtras.

Lemma registerColor_name_identifies_color_witness :
  (@registerColor fixedFormat (mkColor 255 0 0) new_QTikzPicture).1
  = (@registerColor fixedFormat Qt_red sample_emitter).1
  /\ mkColor 255 0 0 = Qt_red.
Proof.
  split; [reflexivity|].
  apply (@registerColor_name_identifies_color fixedFormat (mkColor 255 0 0) Qt_red
           new_QTikzPicture sample_emitter).
  - unfold color_ok, channel_ok; simpl; lia.
  - unfold color_ok, channel_ok; simpl; lia.
  - reflexivity.
Defined.

(** ** The sink only grows *)

Section AppendOnly.
Context `{NumberFormat}.

Lemma appended_refl (s : QTextStream) : appended s s.
Proof. exists "". destruct s. cbn. now rewrite app_nil_r_s. Qed.

Lemma appended_put (s s' : QTextStream) (t : string) :
  appended s s' -> appended s (s' << t).
Proof.
  intros [u ->]. exists (u +:+ t). unfold put. cbn. now rewrite app_assoc_s.
Qed.

Lemma appended_put_real (s s' : QTextStream) (v : qreal) :
  appended s s' -> appended s (s' <<. v).
Proof. apply appended_put. Qed.

Lemma appended_trans (s1 s2 s3 : QTextStream) :
  appended s1 s2 -> appended s2 s3 -> appended s1 s3.
Proof.
  intros [u ->] [v ->]. exists (u +:+ v). cbn. now rewrite app_assoc_s.
Qed.

Lemma grows_refl (d : QTikzPicturePrivate) : grows d d.
Proof. intros s Hts. exists s. auto using appended_refl. Qed.

Lemma grows_trans (d1 d2 d3 : QTikzPicturePrivate) :
  grows d1 d2 -> grows d2 d3 -> grows d1 d3.
Proof.
  intros H12 H23 s Hts.
  destruct (H12 s Hts) as (s2 & Hts2 & Ha2 & Hp2).
  destruct (H23 s2 Hts2) as (s3 & Hts3 & Ha3 & Hp3).
  exists s3. repeat split; [assumption | eapply appended_trans; eassumption | congruence].
Qed.

Lemma grows_with_ts (d : QTikzPicturePrivate) (s' : QTextStream) :
  (forall s, ts d = Some s -> appended s s') -> grows d (with_ts d s').
Proof. intros Ha s Hts. exists s'. auto. Qed.

(** Closes a goal [appended s (s << .. << ..)] or [grows d (with_ts d ..)]. *)
Ltac appended_tac :=
  repeat first [apply appended_put_real | apply appended_put]; apply appended_refl.

Ltac grows_tac :=
  match goal with
  | |- grows ?d ?d => apply grows_refl
  | |- grows ?d (with_ts ?d _) =>
      apply grows_with_ts; intros ? ?; simplify_eq; appended_tac
  end.

Lemma grows_shared (d : QTikzPicturePrivate) :
  (forall options, grows d (begin options d))
  /\ grows d (end_ d)
  /\ (forall options, grows d (beginScope options d))
  /\ grows d (endScope d)
  /\ (forall count, grows d (newline count d))
  /\ (forall text, grows d (comment text d))
  /\ (forall points options, grows d (line_points points options d))
  /\ (forall text, grows d (insert_QString text d))
  /\ (forall number, grows d (insert_double number d))
  /\ (forall number, grows d (insert_int number d))
  /\ (forall color, grows d (registerColor color d).2).
Proof.
  unfold begin, end_, beginScope, endScope, newline, comment, line_points,
    insert_QString, insert_double, insert_int, put_int, registerColor, put_definecolor.
  repeat split; intros;
    destruct (ts d) as [s|] eqn:Hts;
    repeat match goal with
           | |- context [if ?b then _ else _] => destruct b
           | |- context [match ?x with Some _ => _ | None => _ end] => destruct x
           end; cbv zeta; cbn [snd];
    rewrite ?iter_put_nl, ?fold_put_vertex;
    try grows_tac;
    try (intros s0 Hs0; congruence).
  all: intros s0 Hs0; assert (s0 = s) by congruence; subst s0;
    eexists; split; [reflexivity|]; split; [appended_tac | reflexivity].
Qed.

Lemma grows_writePath (cmd options path : string) (d : QTikzPicturePrivate) :
  grows d (Ext.writePath cmd options path d).
Proof.
  unfold Ext.writePath. destruct (ts d) as [s|] eqn:Hts; [|apply grows_refl].
  destruct (isEmpty path); [apply grows_refl|].
  destruct (isEmpty options); cbn [negb]; cbv zeta; grows_tac.
Qed.

Lemma grows_base_exec (c : Base.Call) (d : QTikzPicturePrivate) :
  Base.is_setStream c = false -> grows d (Base.exec c d).
Proof.
  intros Hc.
  destruct (grows_shared d) as (? & ? & ? & ? & ? & ? & ? & ? & ? & ? & ?).
  destruct c; try discriminate Hc; cbn [Base.exec]; unfold insert_chars; auto.
  all: unfold Base.path, Base.path_rect, Base.clip, Base.clip_rect, Base.circle, Base.line;
    destruct (ts d) as [s|] eqn:Hts; try apply grows_refl;
    repeat match goal with
           | |- context [if ?b then _ else _] => destruct b
           end; cbv zeta; grows_tac.
Qed.

Lemma grows_ext_exec (c : Ext.Call) (d : QTikzPicturePrivate) :
  Ext.is_setStream c = false -> grows d (Ext.exec c d).
Proof.
  intros Hc.
  destruct (grows_shared d) as (? & ? & ? & ? & ? & ? & ? & ? & ? & ? & ?).
  destruct c; try discriminate Hc; cbn [Ext.exec]; unfold insert_chars; auto.
  all: apply grows_writePath.
Qed.

(** No sequence of calls other than [setStream] removes or rewrites what
    the sink holds, changes its number settings, detaches it, or changes the
    precision of the emitter: the sink afterwards is the sink before with
    text appended. *)
Theorem calls_only_append (d : QTikzPicturePrivate) (s : QTextStream) :
  ts d = Some s ->
  (forall cs : list Base.Call,
     Forall (fun c => Base.is_setStream c = false) cs ->
     precision (Base.run cs d) = precision d
     /\ exists t, ts (Base.run cs d)
          = Some (mkStream (buffer s +:+ t) (realNumberPrecision s) (realNumberNotation s)))
  /\ (forall cs : list Ext.Call,
        Forall (fun c => Ext.is_setStream c = false) cs ->
        precision (Ext.run cs d) = precision d
        /\ exists t, ts (Ext.run cs d)
             = Some (mkStream (buffer s +:+ t) (realNumberPrecision s) (realNumberNotation s))).
Proof.
  intros Hts.
  assert (Hb : forall cs d0, Forall (fun c => Base.is_setStream c = false) cs ->
                 grows d0 (Base.run cs d0)).
  { induction cs as [|c cs IH]; intros d0 Hall; [apply grows_refl|].
    inversion Hall as [|? ? Hc Hcs]; subst. cbn [Base.run fold_left].
    apply grows_trans with (Base.exec c d0);
      [apply grows_base_exec, Hc | apply IH, Hcs]. }
  assert (He : forall cs d0, Forall (fun c => Ext.is_setStream c = false) cs ->
                 grows d0 (Ext.run cs d0)).
  { induction cs as [|c cs IH]; intros d0 Hall; [apply grows_refl|].
    inversion Hall as [|? ? Hc Hcs]; subst. cbn [Ext.run fold_left].
    apply grows_trans with (Ext.exec c d0);
      [apply grows_ext_exec, Hc | apply IH, Hcs]. }
  split; intros cs Hall.
  - destruct (Hb cs d Hall s Hts) as (s' & Hts' & [t ->] & Hp). eauto.
  - destruct (He cs d Hall s Hts) as (s' & Hts' & [t ->] & Hp). eauto.
Qed.

End AppendOnly.

Lemma calls_only_append_witness :
  exists t,
    ts (@Base.run fixedFormat
          [Base.Begin ""; Base.Comment "axes";
           Base.Line (mkPoint 0%Q 0%Q) (mkPoint 1%Q 0%Q) "->"; Base.End_]
          (insert_QString "% header" sample_emitter))
    = Some (mkStream ("% header" +:+ t) 2 FixedNotation).
Proof.
  apply (proj1 (@calls_only_append fixedFormat
                  (insert_QString "% header" sample_emitter)
                  (mkStream "% header" 2 FixedNotation) eq_refl)).
  repeat constructor.
Defined.

(** ** The earlier revisions *)

Section LegacyExtras.
Context `{NumberFormat}.

Lemma path_body_line (options : string) (i : Z) (e : Element) (s : QTextStream) :
  etype e = LineToElement -> Legacy.path_body options i e s = s << segment_text s e.
Proof.
  intros He. unfold Legacy.path_body, segment_text, put_real. rewrite He.
  rewrite !put_put, !streamReal_put. f_equal; try text_eq.
Qed.

Lemma for_elements_lines (options : string) (lines : list Element) (i : Z) (s : QTextStream) :
  Forall (fun e => etype e = LineToElement) lines ->
  Legacy.for_elements (Legacy.path_body options) i lines s
  = s << concat_map (segment_text s) lines.
Proof.
  revert i s. induction lines as [|e lines IH]; intros i s Hall.
  - cbn. now rewrite put_nil.
  - inversion Hall as [|? ? He Hrest]; subst.
    cbn [Legacy.for_elements concat_map].
    rewrite path_body_line by assumption. rewrite IH by assumption.
    rewrite put_put. reflexivity.
Qed.

(** The streamed [path] of [tikzexport.cpp] does write a path with a single
    sub-path, and closes it: a [MoveTo] followed by one or more [LineTo]
    elements gives one draw command with every point and [" -- cycle;"]. *)
Theorem legacy_path_closes_the_polyline (x y : qreal) (lines : list Element)
  (options : string) (d : QTikzPicturePrivate) (s : QTextStream) :
  ts d = Some s ->
  lines <> [] ->
  Forall (fun e => etype e = LineToElement) lines ->
  output (Legacy.path (mkElement x y MoveToElement :: lines) options d)
  = output d +:+ "\draw[" +:+ options +:+ "] ("
    +:+ streamReal s x +:+ ", " +:+ streamReal s y +:+ ")"
    +:+ concat_map (segment_text s) lines +:+ " -- cycle;" +:+ nl.
Proof.
  intros Hts Hne Hall. unfold Legacy.path, output at 2. rewrite Hts.
  assert (Hpe : path_isEmpty (mkElement x y MoveToElement :: lines) = false)
    by (destruct lines; [congruence | reflexivity]).
  assert (Hlen : (0 <? Z.of_nat (length (mkElement x y MoveToElement :: lines))) = true)
    by (apply Z.ltb_lt; cbn [length]; lia).
  rewrite Hpe, Hlen.
  cbn [Legacy.for_elements].
  rewrite for_elements_lines by assumption.
  unfold Legacy.path_body. cbn [etype Z.ltb Z.compare ex ey].
  unfold put_real. stream_norm. text_eq.
Qed.

Lemma join_not_empty (x : string) (l : list string) :
  isEmpty x = false -> isEmpty (join nl (x :: l)) = false.
Proof.
  intros Hx. unfold join. cbn [String.concat].
  destruct l; [assumption | now apply isEmpty_app_l].
Qed.

Lemma closed_text_not_empty (t : string) : closed_text t -> isEmpty t = false.
Proof. intros [body ->]. now apply isEmpty_app_r. Qed.

(** The revision that builds the list inside [path] writes what [path] of
    [src/qtikzpicture.cpp] writes, with the command [\draw] where the latter
    has [\path]: either both write nothing, or both append the same text
    after the command name. *)
Theorem path_joined_is_path_with_draw
  (p : QPainterPath) (options : string) (d : QTikzPicturePrivate) :
  (Legacy.path_joined p options d = d /\ Base.path p options d = d)
  \/ exists s body,
       ts d = Some s
       /\ output (Legacy.path_joined p options d) = buffer s +:+ "\draw" +:+ body
       /\ output (Base.path p options d) = buffer s +:+ "\path" +:+ body.
Proof.
  unfold Legacy.path_joined, Base.path, Base.toTikzPath, toTikzPath_path.
  destruct (ts d) as [s|] eqn:Hts; [|now left].
  destruct (path_isEmpty p); [now left|].
  pose proof (fold_step_closed Base.toCoord p locals0 ltac:(constructor)) as Hclosed.
  fold (walk Base.toCoord p) in Hclosed.
  destruct (pathList (walk Base.toCoord p)) as [|x l] eqn:Hl; [now left|].
  right. inversion Hclosed as [|? ? Hx _]; subst.
  rewrite (join_not_empty x l (closed_text_not_empty x Hx)).
  exists s, ((if isEmpty options then " " else "[" +:+ options +:+ "] ")
             +:+ join nl (x :: l) +:+ ";" +:+ nl).
  split; [reflexivity|].
  destruct (isEmpty options); cbv zeta; split; stream_norm; text_eq.
Qed.

Lemma for_elements_clip (p : QPainterPath) (i : Z) (s0 s : QTextStream) (w : nat) :
  appended s0 s ->
  appended s0 (Legacy.for_elements Legacy.clip_body i p (s, w)).1
  /\ (Legacy.for_elements Legacy.clip_body i p (s, w)).2
     = (w + length (List.filter is_curve p))%nat.
Proof.
  revert i s w. induction p as [|e p IH]; intros i s w Ha.
  - cbn. split; [assumption | lia].
  - cbn [Legacy.for_elements List.filter].
    assert (Hstep : appended s0 (Legacy.clip_body i e (s, w)).1
                    /\ (Legacy.clip_body i e (s, w)).2
                       = (w + (if is_curve e then 1 else 0))%nat).
    { unfold Legacy.clip_body, is_curve. cbn [fst snd].
      destruct (etype e); cbn [fst snd]; (split; [|lia]);
        try destruct (0 <? i);
        repeat first [apply appended_put_real | apply appended_put]; assumption. }
    destruct Hstep as [Ha' Hw'].
    destruct (Legacy.clip_body i e (s, w)) as [s1 w1]. cbn [fst snd] in Ha', Hw'.
    destruct (IH (i + 1) s1 w1 Ha') as [Ha'' Hw''].
    split; [assumption|]. rewrite Hw'', Hw'.
    destruct (is_curve e); cbn [length]; lia.
Qed.

(** [clip] of the earlier revisions, for a path that is not empty and with
    a sink: the text starts with the command and ends with [" -- cycle;"]
    and a newline, so the last sub-path is closed too, and [qWarning] is
    called once for every curve element of the path. *)
Theorem legacy_clip_closes_and_warns
  (p : QPainterPath) (d : QTikzPicturePrivate) (s : QTextStream) :
  ts d = Some s -> path_isEmpty p = false ->
  (Legacy.clip p d).2 = length (List.filter is_curve p)
  /\ exists body,
       output (Legacy.clip p d).1 = output d +:+ "\clip " +:+ body +:+ " -- cycle;" +:+ nl.
Proof.
  intros Hts Hp. unfold Legacy.clip, output at 2. rewrite Hts, Hp. cbn [fst snd].
  destruct (for_elements_clip p 0 (s << "\clip ") (s << "\clip ") O (appended_refl _))
    as [[body Hbody] Hw].
  split; [exact Hw|]. exists body. rewrite Hbody. unfold put. cbn [buffer]. text_eq.
Qed.

End LegacyExtras.

Lemma legacy_path_closes_the_polyline_witness :
  output (@Legacy.path fixedFormat
            [mkElement 0%Q 0%Q MoveToElement; mkElement 1%Q 1%Q LineToElement]
            "thin" sample_emitter)
  = "\draw[thin] (0.00, 0.00) -- (1.00, 1.00) -- cycle;" +:+ nl.
Proof.
  apply (@legacy_path_closes_the_polyline fixedFormat 0%Q 0%Q
           [mkElement 1%Q 1%Q LineToElement] "thin" sample_emitter
           (mkStream "" 2 FixedNotation)).
  - reflexivity.
  - discriminate.
  - repeat constructor.
Defined.

Lemma legacy_clip_closes_and_warns_witness :
  (@Legacy.clip fixedFormat
     [mkElement 0%Q 0%Q MoveToElement; mkElement 1%Q 1%Q CurveToElement;
      mkElement 2%Q 1%Q CurveToDataElement; mkElement 3%Q 0%Q CurveToDataElement]
     sample_emitter).2 = 3%nat.
Proof.
  apply (proj1 (@legacy_clip_closes_and_warns fixedFormat
                  [mkElement 0%Q 0%Q MoveToElement; mkElement 1%Q 1%Q CurveToElement;
                   mkElement 2%Q 1%Q CurveToDataElement; mkElement 3%Q 0%Q CurveToDataElement]
                  sample_emitter (mkStream "" 2 FixedNotation) eq_refl eq_refl)).
Defined.

Lemma registry_holds_the_registered_names_witness :
  colors (@Base.run fixedFormat
            [Base.Begin ""; Base.RegisterColor (mkColor 100 200 0); Base.End_]
            new_QTikzPicture) !! "cwucyqq" = Some true.
Proof.
  apply (proj1 (@registry_holds_the_registered_names fixedFormat "cwucyqq" true)).
  split; [reflexivity|]. exists (mkColor 100 200 0).
  split; [simpl; auto | split; reflexivity].
Defined.

(** ** The text of a rectangle *)

Section RectangleText.
Context `{NumberFormat}.

Lemma rect_not_empty (rect : QRectF) :
  (0 < rw rect)%Q -> (0 < rh rect)%Q -> rect_isEmpty rect = false.
Proof.
  intros Hw Hh. unfold rect_isEmpty. now rewrite (Qleb0_false _ Hw), (Qleb0_false _ Hh).
Qed.

(** A rectangle of positive width and height, with a sink: [path] appends
    one command with the top-left corner, the word [rectangle] and the
    bottom-right corner (left + width, top + height), in both revisions; the
    coordinates are rendered by [toCoord]. *)
Theorem rectangle_command_text (rect : QRectF) (options : string)
  (d : QTikzPicturePrivate) (s : QTextStream) :
  ts d = Some s -> (0 < rw rect)%Q -> (0 < rh rect)%Q ->
  let corner := mkPoint (rx rect + rw rect)%Q (ry rect + rh rect)%Q in
  output (Base.path_rect rect options d)
  = output d +:+ "\path" +:+ bracket options +:+ " "
    +:+ Base.toCoord (mkPoint (rx rect) (ry rect)) +:+ " rectangle "
    +:+ Base.toCoord corner +:+ ";" +:+ nl
  /\ output (Ext.path (Ext.OfRect rect) options d)
     = output d +:+ "\path" +:+ bracket options +:+ " "
       +:+ Ext.toCoord d (mkPoint (rx rect) (ry rect)) +:+ " rectangle "
       +:+ Ext.toCoord d corner +:+ ";" +:+ nl.
Proof.
  intros Hts Hw Hh corner. subst corner.
  pose proof (rect_not_empty rect Hw Hh) as Hne. split.
  - unfold Base.path_rect, Base.toTikzPath_rect, output at 2, bracket, topLeft, bottomRight.
    rewrite Hts, Hne. rewrite isEmpty_app_l by reflexivity.
    destruct (isEmpty options); cbv zeta; stream_norm; text_eq.
  - unfold Ext.path. cbn [Ext.toTikzPath_shape].
    rewrite (writePath_output _ _ _ _ s Hts).
    + unfold Ext.toTikzPath_rect, topLeft, bottomRight. rewrite Hne. text_eq.
    + unfold Ext.toTikzPath_rect. rewrite Hne. now apply isEmpty_app_l.
Qed.

End RectangleText.

Lemma rectangle_command_text_witness :
  output (@Ext.path fixedFormat (Ext.OfRect (mkRect 0%Q 0%Q 2%Q 1%Q)) "" sample_emitter)
  = "\path (0.00, 0.00) rectangle (2.00, 1.00);" +:+ nl.
Proof.
  apply (proj2 (@rectangle_command_text fixedFormat (mkRect 0%Q 0%Q 2%Q 1%Q) ""
                  sample_emitter (mkStream "" 2 FixedNotation)
                  eq_refl eq_refl eq_refl)).
Defined.
